(** * sam-workflows: the access-file pipeline of [subcommands/accessfiles.py]

    A shallow embedding of [_convert_pdf_cover_to_image], [_generate_jpgs]
    and [generate_sam_access_files], and the properties of the pipeline's
    decision logic: rights filter, error propagation, tallying, EXIF
    re-orientation, the overwrite guard and the upload step.

    Python exceptions are values of [exn]; effectful code lives in a
    state-and-exception monad whose state survives a raised exception (files
    written before a crash stay on disk).  Everything the module imports
    (settings, helpers, json, pathlib, fitz, PIL) is a field of [World]. *)

From stdpp Require Import gmap strings list.
From Stdlib Require Import ZArith Ascii String Lia.

Local Open Scope Z_scope.
Local Open Scope string_scope.

(** ** Python exceptions *)

Inductive exn : Type :=
| KeyError (key : string)
| AttributeError (what : string)
| TypeError (what : string)
| ValueError (what : string)
| IndexError
| JSONDecodeError
| OSError (what : string)
| RuntimeError (what : string)
| PDFConvertError (cause : exn).

(** [str(e)], as interpolated into the f-strings of the source. *)
Fixpoint exn_str (e : exn) : string :=
  match e with
  | KeyError k => "'" +:+ k +:+ "'"
  | AttributeError w | TypeError w | ValueError w | OSError w | RuntimeError w => w
  | IndexError => "list index out of range"
  | JSONDecodeError => "Expecting value"
  | PDFConvertError c => exn_str c
  end.

(** ** State-and-exception monad *)

Definition M (S A : Type) : Type := S → S * (exn + A).

Definition ret {S A} (a : A) : M S A := λ s, (s, inr a).
Definition raise {S A} (e : exn) : M S A := λ s, (s, inl e).
Definition bind {S A B} (m : M S A) (k : A → M S B) : M S B :=
  λ s, match m s with
       | (s', inr a) => k a s'
       | (s', inl e) => (s', inl e)
       end.

(** [try: m except Exception as e: h e] *)
Definition try_except {S A} (m : M S A) (h : exn → M S A) : M S A :=
  λ s, match m s with
       | (s', inl e) => h e s'
       | r => r
       end.

Definition get {S} : M S S := λ s, (s, inr s).
Definition modify {S} (f : S → S) : M S unit := λ s, (f s, inr tt).
Definition lift_result {S A} (r : exn + A) : M S A := λ s, (s, r).

(** Run a computation on a component of the state. *)
Definition zoom {S T A} (proj : S → T) (inj : T → S → S) (m : M T A) : M S A :=
  λ s, let (t', r) := m (proj s) in (inj t' s, r).

#[global] Instance M_ret {S} : MRet (M S) := λ A, @ret S A.
#[global] Instance M_bind {S} : MBind (M S) := λ A B k m, bind m k.

(** [for x in xs: body x] *)
Fixpoint for_each {S A} (xs : list A) (body : A → M S unit) : M S unit :=
  match xs with
  | [] => ret tt
  | x :: rest => body x ;; for_each rest body
  end.

(** ** Python strings: [s.split(";")[0]] and [int(s)] *)

Definition semicolon : ascii := ";"%char.

(** [s.split(";")[0]]: everything before the first semicolon. *)
Fixpoint first_token (s : string) : string :=
  match s with
  | EmptyString => EmptyString
  | String a r => if Ascii.eqb a semicolon then EmptyString else String a (first_token r)
  end.

(** Whitespace skipped by [int()] around an ASCII literal: TAB, LF, VT, FF,
    CR and space. *)
Definition is_space (a : ascii) : bool :=
  let n := nat_of_ascii a in
  ((9 <=? n)%nat && (n <=? 13)%nat) || (n =? 32)%nat.

Definition is_digit (a : ascii) : bool :=
  let n := nat_of_ascii a in (48 <=? n)%nat && (n <=? 57)%nat.

Definition digit_val (a : ascii) : Z := Z.of_nat (nat_of_ascii a) - 48.

Fixpoint lstrip (l : list ascii) : list ascii :=
  match l with
  | a :: r => if is_space a then lstrip r else l
  | [] => []
  end.

Definition strip (l : list ascii) : list ascii := rev (lstrip (rev (lstrip l))).

(** Decimal digits, a single underscore allowed between two digits. *)
Fixpoint digits_from (after_underscore : bool) (acc : Z) (l : list ascii) : option Z :=
  match l with
  | [] => if after_underscore then None else Some acc
  | a :: r =>
      if is_digit a then digits_from false (10 * acc + digit_val a) r
      else if Ascii.eqb a "_"%char
           then (if after_underscore then None else digits_from true acc r)
           else None
  end.

Definition parse_digits (l : list ascii) : option Z :=
  match l with
  | a :: r => if is_digit a then digits_from false (digit_val a) r else None
  | [] => None
  end.

(** [int(s)] on a [str], base 10.  [None] is [ValueError].  Strings are byte
    strings here: a byte outside ASCII is never a digit or a blank (Python
    would also accept non-ASCII decimal digits and blanks), and the
    interpreter's limit on the number of digits is absent. *)
Definition py_int (s : string) : option Z :=
  let l := strip (list_ascii_of_string s) in
  match l with
  | a :: r =>
      if Ascii.eqb a "+"%char then parse_digits r
      else if Ascii.eqb a "-"%char then Z.opp <$> parse_digits r
      else parse_digits l
  | [] => None
  end.

(** ** Data model *)

(** A value inside the JSON object of a row.  Nested arrays and objects are
    never inspected by the pipeline. *)
Inductive jvalue : Type :=
| JNull
| JBool (b : bool)
| JNum (n : Z)
| JStr (s : string)
| JNested.

(** What [json.loads] returns: a dict, or anything else. *)
Inductive jdoc : Type :=
| JObject (d : gmap string jvalue)
| JOther (v : jvalue).

(** A PIL image, as the history of the calls that produced it. *)
Inductive image : Type :=
| Opened (path : string)
| Rotate (degrees : Z) (img : image)
| Copy (img : image)
| Thumbnail (w h : Z) (img : image)
| Watermark (img : image)
| ConvertRGB (img : image).

(** What the run has written at a path. *)
Inductive content : Type :=
| Jpeg (img : image) (quality : Z)
| Png (pdf : string).

Inductive exif_value : Type :=
| ExifInt (n : Z)
| ExifOther.

(** Outcome of [Image.open]. *)
Inductive open_result : Type :=
| OpenOk
| OpenUnidentified
| OpenFailed (e : exn).

(** The dict [resp] of [_generate_jpgs]: integer size keys and the key
    ["error"]. *)
Record Resp : Type := mkResp {
  resp_paths : gmap Z string;
  resp_error : option string;
}.

Record OutputRecord : Type := mkOutputRecord {
  oasid : string;
  thumbnail : option string;
  record_image : option string;
  record_type : string;
  large_image : string;
  web_document_url : string;
}.

(** Lines printed by the pipeline. *)
Inductive message : Type :=
| MsgCsvLoaded
| MsgSkipLegal (filename : jvalue)
| MsgSkipContractual (filename : jvalue)
| MsgNoFile (filepath : string)
| MsgIsDirectory (filepath : string)
| MsgUnknownFormat (name : string)
| MsgConvertError (err : string)
| MsgConverted (filename : string)
| MsgUploaded (filename : string)
| MsgUploadFailed (filename : string) (e : exn)
| MsgDone
| MsgSummary (converted uploaded failed skipped : nat).

(** One call of [_generate_jpgs] made by the pipeline, with the value of
    every parameter (defaults included). *)
Record jpg_call : Type := mkCall {
  call_img_in : string;
  call_quality : Z;
  call_sizes : list Z;
  call_watermark : bool;
  call_overwrite : bool;
}.

(** ** The imported modules *)

Record World : Type := mkWorld {
  (* settings *)
  SAM_WATERMARK_WIDTH : Z;
  SAM_ACCESS_LARGE_SIZE : Z;
  SAM_ACCESS_LARGE_PATH : string;
  SAM_ACCESS_MEDIUM_SIZE : Z;
  SAM_ACCESS_MEDIUM_PATH : string;
  SAM_ACCESS_SMALL_SIZE : Z;
  SAM_ACCESS_SMALL_PATH : string;
  SAM_ACCESS_PATH : string;
  SAM_MASTER_PATH : string;
  SAM_IMAGE_FORMATS : list string;
  (* helpers *)
  load_csv_from_sam : string → exn + list (gmap string string);
  save_csv_to_sam : list OutputRecord → string → option exn;
  Remote : Type;
  upload_files : Remote → list string → bool → Remote * (exn + list string);
  (* json *)
  json_loads : string → exn + jdoc;
  (* pathlib *)
  path_join : string → string → string;
  path_stem : string → string;
  path_suffix : string → string;
  path_name : string → string;
  disk_exists : string → bool;
  disk_is_file : string → bool;
  (* fitz; [None] is success *)
  fitz_open : gmap string content → string → option exn;
  fitz_loadPage : gmap string content → string → Z → option exn;
  fitz_getPixmap : gmap string content → string → Z → option exn;
  fitz_writePNG : gmap string content → string → string → option exn;
  (* PIL *)
  pil_open : gmap string content → string → open_result;
  pil_load : gmap string content → string → option exn;
  pil_has_getexif : gmap string content → string → bool;
  pil_getexif : gmap string content → string → option (gmap Z exif_value);
  ExifTags_TAGS : list (Z * string);
  img_width : image → Z;
  img_mode : image → string;
  img_filename : image → option string;
  pil_save : gmap string content → image → string → Z → option exn;
}.

(** Python truthiness of an optional string ([None] and [""] are falsy). *)
Definition truthy (o : option string) : bool :=
  match o with
  | Some s => negb (String.eqb s "")
  | None => false
  end.

(** [int(v.split(";")[0])] for a value taken out of the JSON object. *)
Definition status_code (v : jvalue) : exn + Z :=
  match v with
  | JStr s =>
      match py_int (first_token s) with
      | Some n => inr n
      | None => inl (ValueError "invalid literal for int() with base 10")
      end
  | _ => inl (AttributeError "split")
  end.

Definition lift_option {S} (o : option exn) : M S unit :=
  match o with
  | Some e => raise e
  | None => ret tt
  end.

(** [l[i]] *)
Definition index {S} (l : list string) (i : nat) : M S string :=
  match l !! i with
  | Some x => ret x
  | None => raise IndexError
  end.

Section Accessfiles.
Context (W : World).

Abbreviation Files := (gmap string content).

(** [Path.exists] and [Path.is_file]: what was on disk at the start, and
    what the run has written since. *)
Definition path_exists (fs : Files) (p : string) : bool :=
  disk_exists W p || bool_decide (is_Some (fs !! p)).

Definition path_is_file (fs : Files) (p : string) : bool :=
  disk_is_file W p || bool_decide (is_Some (fs !! p)).

(** ** [_convert_pdf_cover_to_image] *)

Definition _convert_pdf_cover_to_image (pdf_in out_folder : string) : M Files string :=
  fs ← get;
  lift_option (fitz_open W fs pdf_in);;
  lift_option (fitz_loadPage W fs pdf_in 0);;
  lift_option (fitz_getPixmap W fs pdf_in 0);;
  let out_file := path_join W out_folder (path_stem W pdf_in) +:+ ".png" in
  try_except
    (lift_option (fitz_writePNG W fs pdf_in out_file);;
     modify (insert out_file (Png pdf_in));;
     ret out_file)
    (λ e, raise (PDFConvertError e)).

(** ** [_generate_jpgs] *)

(** The loop over [ExifTags.TAGS.items()]: the first tag named
    ["Orientation"]. *)
Definition orientation_key : option Z :=
  fst <$> List.find (λ kv, String.eqb (snd kv) "Orientation") (ExifTags_TAGS W).

(** Lines 73-92: the rotation applied to the loaded image. *)
Definition fix_orientation (fs : Files) (img_in : string) (img : image) : image :=
  if pil_has_getexif W fs img_in then
    match pil_getexif W fs img_in with
    | Some exif =>
        match orientation_key ≫= (λ k, exif !! k) with
        | Some (ExifInt 3) => Rotate 180 img
        | Some (ExifInt 6) => Rotate 270 img
        | Some (ExifInt 8) => Rotate 90 img
        | _ => img
        end
    | None => img
    end
  else img.

(** The dict literal [access_dirs]; a later key replaces an equal earlier
    one. *)
Definition access_dirs : gmap Z string :=
  <[SAM_ACCESS_SMALL_SIZE W := SAM_ACCESS_SMALL_PATH W]>
    (<[SAM_ACCESS_MEDIUM_SIZE W := SAM_ACCESS_MEDIUM_PATH W]>
       (<[SAM_ACCESS_LARGE_SIZE W := SAM_ACCESS_LARGE_PATH W]> ∅)).

(** [access_dirs.get(size) or SAM_ACCESS_PATH] *)
Definition out_dir (size : Z) : string :=
  let d := access_dirs !! size in
  if truthy d then default "" d else SAM_ACCESS_PATH W.

Definition out_file (img_in : string) (size : Z) : string :=
  path_join W (out_dir size) (path_stem W img_in +:+ ".jpg").

(** Lines 95-105: the image saved for one size. *)
Definition sized_copy (img : image) (watermark : bool) (size : Z) : image :=
  let copy_img := Thumbnail size size (Copy img) in
  let copy_img :=
    if watermark && (img_width W copy_img >? SAM_WATERMARK_WIDTH W)%Z
    then Watermark copy_img else copy_img in
  if negb (String.eqb (img_mode W copy_img) "RGB")
  then ConvertRGB copy_img else copy_img.

(** One iteration of [for size in sizes]. *)
Definition jpg_size (img_in : string) (img : image) (quality : Z)
    (watermark overwrite : bool) (resp : Resp) (size : Z) : M Files Resp :=
  let copy_img := sized_copy img watermark size in
  let out := out_file img_in size in
  fs ← get;
  if negb overwrite && path_exists fs out then
    ret (mkResp (resp_paths resp) (Some ("File already exists: " +:+ out)))
  else
    match pil_save W fs copy_img out quality with
    | None =>
        modify (insert out (Jpeg copy_img quality));;
        ret (mkResp (<[size := out]> (resp_paths resp)) (resp_error resp))
    | Some e =>
        match img_filename W copy_img with
        | Some name =>
            ret (mkResp (resp_paths resp)
                   (Some ("Error saving file " +:+ name +:+ ": " +:+ exn_str e)))
        | None => raise (AttributeError "filename")
        end
    end.

Fixpoint jpg_sizes (img_in : string) (img : image) (quality : Z)
    (watermark overwrite : bool) (sizes : list Z) (resp : Resp) : M Files Resp :=
  match sizes with
  | [] => ret resp
  | size :: rest =>
      resp' ← jpg_size img_in img quality watermark overwrite resp size;
      jpg_sizes img_in img quality watermark overwrite rest resp'
  end.

Definition _generate_jpgs (img_in : string) (quality : Z) (sizes : list Z)
    (watermark overwrite : bool) : M Files Resp :=
  fs ← get;
  match pil_open W fs img_in with
  | OpenUnidentified =>
      ret (mkResp ∅ (Some ("Failed to open " +:+ img_in +:+ " as an image.")))
  | OpenFailed e =>
      ret (mkResp ∅ (Some ("Error opening file " +:+ path_name W img_in +:+ ": "
                             +:+ exn_str e)))
  | OpenOk =>
      lift_option (pil_load W fs img_in);;
      let img := fix_orientation fs img_in (Opened img_in) in
      jpg_sizes img_in img quality watermark overwrite sizes (mkResp ∅ None)
  end.

(** ** [generate_sam_access_files] *)

(** The state of a run: the files written so far, the remote store, the
    local variables [output], [converted], [skipped], [failed], [uploaded],
    the printed lines, the rows handed to [save_csv_to_sam], and the calls
    made to [_generate_jpgs]. *)
Record Run : Type := mkRun {
  files : gmap string content;
  remote : Remote W;
  output : list OutputRecord;
  converted : nat;
  skipped : nat;
  failed : nat;
  uploaded : nat;
  stdout : list message;
  saved_csv : option (list OutputRecord);
  jpg_calls : list jpg_call;
}.

Definition start (fs : Files) (rem : Remote W) : Run :=
  mkRun fs rem [] 0 0 0 0 [] None [].

Definition set_files (fs : Files) (r : Run) : Run :=
  mkRun fs (remote r) (output r) (converted r) (skipped r) (failed r)
    (uploaded r) (stdout r) (saved_csv r) (jpg_calls r).

Definition set_remote (rem : Remote W) (r : Run) : Run :=
  mkRun (files r) rem (output r) (converted r) (skipped r) (failed r)
    (uploaded r) (stdout r) (saved_csv r) (jpg_calls r).

Definition add_msg (msg : message) (r : Run) : Run :=
  mkRun (files r) (remote r) (output r) (converted r) (skipped r) (failed r)
    (uploaded r) (stdout r ++ [msg]) (saved_csv r) (jpg_calls r).

Definition bump_converted (r : Run) : Run :=
  mkRun (files r) (remote r) (output r) (S (converted r)) (skipped r) (failed r)
    (uploaded r) (stdout r) (saved_csv r) (jpg_calls r).

Definition bump_skipped (r : Run) : Run :=
  mkRun (files r) (remote r) (output r) (converted r) (S (skipped r)) (failed r)
    (uploaded r) (stdout r) (saved_csv r) (jpg_calls r).

Definition bump_failed (r : Run) : Run :=
  mkRun (files r) (remote r) (output r) (converted r) (skipped r) (S (failed r))
    (uploaded r) (stdout r) (saved_csv r) (jpg_calls r).

Definition bump_uploaded (r : Run) : Run :=
  mkRun (files r) (remote r) (output r) (converted r) (skipped r) (failed r)
    (S (uploaded r)) (stdout r) (saved_csv r) (jpg_calls r).

Definition add_output (o : OutputRecord) (r : Run) : Run :=
  mkRun (files r) (remote r) (output r ++ [o]) (converted r) (skipped r)
    (failed r) (uploaded r) (stdout r) (saved_csv r) (jpg_calls r).

Definition add_call (c : jpg_call) (r : Run) : Run :=
  mkRun (files r) (remote r) (output r) (converted r) (skipped r) (failed r)
    (uploaded r) (stdout r) (saved_csv r) (jpg_calls r ++ [c]).

Definition set_saved_csv (rows : list OutputRecord) (r : Run) : Run :=
  mkRun (files r) (remote r) (output r) (converted r) (skipped r) (failed r)
    (uploaded r) (stdout r) (Some rows) (jpg_calls r).

Definition print (msg : message) : M Run unit := modify (add_msg msg).
Definition incr_converted : M Run unit := modify bump_converted.
Definition incr_skipped : M Run unit := modify bump_skipped.
Definition incr_failed : M Run unit := modify bump_failed.
Definition incr_uploaded : M Run unit := modify bump_uploaded.
Definition append_output (o : OutputRecord) : M Run unit := modify (add_output o).
Definition log_call (c : jpg_call) : M Run unit := modify (add_call c).

Definition write_csv (rows : list OutputRecord) (csv_out : string) : M Run unit :=
  lift_option (save_csv_to_sam W rows csv_out);;
  modify (set_saved_csv rows).

Definition on_files {A} (m : M Files A) : M Run A := zoom files set_files m.

(** [await upload_files(filepaths, overwrite=overwrite)] *)
Definition call_upload (filepaths : list string) (overwrite : bool) : M Run (list string) :=
  λ r, let (rem, res) := upload_files W (remote r) filepaths overwrite in
       (set_remote rem r, res).

(** Lines 234-237: the call [_generate_jpgs(filepath, sizes=filesizes,
    watermark=watermark)]; [quality] and [overwrite] take their defaults. *)
Definition call_generate_jpgs (filepath : string) (filesizes : list Z)
    (watermark : bool) : M Run Resp :=
  log_call (mkCall filepath 80 filesizes watermark false);;
  on_files (_generate_jpgs filepath 80 filesizes watermark false).

(** Lines 253-273.  [Some] carries the three names bound after the [try];
    [None] is the [continue] of the handler. *)
Definition upload_step (filename : string) (overwrite : bool)
    (small medium large : option string)
    : M Run (option (option string * option string * option string)) :=
  match small, medium with
  | Some s, Some m =>
      let filepaths :=
        ([s; m] ++ (if truthy large then [default "" large] else []))%list in
      try_except
        (urls ← call_upload filepaths overwrite;
         small' ← index urls 0;
         medium' ← index urls 1;
         large' ← index urls 2;
         print (MsgUploaded filename);;
         incr_uploaded;;
         ret (Some (Some small', Some medium', Some large')))
        (λ e, print (MsgUploadFailed filename e);;
              incr_failed;;
              ret None)
  | _, _ => raise (TypeError "expected str, bytes or os.PathLike object, not NoneType")
  end.

(** Lines 234-284: from the generator call to the appended output row. *)
Definition convert_and_emit (watermark upload overwrite : bool)
    (filename filepath : string) (filesizes : list Z) (record_type : string)
    : M Run unit :=
  convert_resp ← call_generate_jpgs filepath filesizes watermark;
  if truthy (resp_error convert_resp) then
    print (MsgConvertError (default "" (resp_error convert_resp)));;
    incr_failed
  else
    print (MsgConverted filename);;
    incr_converted;;
    let small := resp_paths convert_resp !! SAM_ACCESS_SMALL_SIZE W in
    let medium := resp_paths convert_resp !! SAM_ACCESS_MEDIUM_SIZE W in
    let large := resp_paths convert_resp !! SAM_ACCESS_LARGE_SIZE W in
    links ← (if upload then upload_step filename overwrite small medium large
             else ret (Some (small, medium, large)));
    match links with
    | Some (small, medium, large) =>
        append_output
          (mkOutputRecord (path_stem W filepath) small medium record_type
             (if truthy large then default "" large else "") "web_url")
    | None => ret tt
    end.

(** Lines 204-232: path checks and format dispatch. *)
Definition process_master (watermark upload overwrite : bool) (filename : jvalue)
    : M Run unit :=
  match filename with
  | JStr name =>
      let filepath := path_join W (SAM_MASTER_PATH W) name in
      r ← get;
      if negb (path_exists (files r) filepath) then
        print (MsgNoFile filepath);; incr_failed
      else if negb (path_is_file (files r) filepath) then
        print (MsgIsDirectory filepath);; incr_failed
      else if bool_decide (path_suffix W filepath ∈ SAM_IMAGE_FORMATS W) then
        convert_and_emit watermark upload overwrite name filepath
          [SAM_ACCESS_LARGE_SIZE W; SAM_ACCESS_MEDIUM_SIZE W; SAM_ACCESS_SMALL_SIZE W]
          "image"
      else if String.eqb (path_suffix W filepath) ".pdf" then
        cover ← on_files (_convert_pdf_cover_to_image filepath "./images/temp");
        convert_and_emit watermark upload overwrite name cover
          [SAM_ACCESS_MEDIUM_SIZE W; SAM_ACCESS_SMALL_SIZE W]
          "web_document"
      else
        print (MsgUnknownFormat (path_name W filepath));; incr_skipped
  | _ => raise (TypeError "expected str, bytes or os.PathLike object")
  end.

(** Lines 186-202: one iteration of [for file in files]. *)
Definition process_row (watermark upload overwrite : bool)
    (file : gmap string string) : M Run unit :=
  encoded ← lift_result (match file !! "oasDataJsonEncoded" with
                         | Some s => inr s
                         | None => inl (KeyError "oasDataJsonEncoded")
                         end);
  doc ← lift_result (json_loads W encoded);
  data ← lift_result (match doc with
                      | JObject d => inr d
                      | JOther _ => inl (AttributeError "get")
                      end);
  let legal_status := default (JStr "4") (data !! "other_restrictions") in
  let constractual_status := default (JStr "1") (data !! "contractual_status") in
  filename ← lift_result (match data !! "filename" with
                          | Some v => inr v
                          | None => inl (KeyError "filename")
                          end);
  legal ← lift_result (status_code legal_status);
  if (legal >? 1)%Z then
    print (MsgSkipLegal filename);; incr_skipped
  else
    contractual ← lift_result (status_code constractual_status);
    if (contractual <? 3)%Z then
      print (MsgSkipContractual filename);; incr_skipped
    else
      process_master watermark upload overwrite filename.

Definition generate_sam_access_files (csv_in csv_out : string)
    (watermark upload overwrite : bool) : M Run unit :=
  rows ← try_except
           (rows ← lift_result (load_csv_from_sam W csv_in);
            print MsgCsvLoaded;;
            ret rows)
           (λ e, raise e);
  for_each rows (process_row watermark upload overwrite);;
  r ← get;
  match output r with
  | [] => ret tt
  | _ :: _ => write_csv (output r) csv_out
  end;;
  print MsgDone;;
  r ← get;
  print (MsgSummary (converted r) (uploaded r) (failed r) (skipped r)).

End Accessfiles.

Arguments files {W} _.
Arguments remote {W} _.
Arguments output {W} _.
Arguments converted {W} _.
Arguments skipped {W} _.
Arguments failed {W} _.
Arguments uploaded {W} _.
Arguments stdout {W} _.
Arguments saved_csv {W} _.
Arguments jpg_calls {W} _.
Arguments add_msg {W} _ _.
Arguments bump_converted {W} _.
Arguments bump_skipped {W} _.
Arguments bump_failed {W} _.
Arguments bump_uploaded {W} _.
Arguments add_output {W} _ _.
Arguments add_call {W} _ _.
Arguments set_files {W} _ _.
Arguments set_remote {W} _ _.
Arguments set_saved_csv {W} _ _.

(** ** A concrete world

    Settings as in the defaults of [_generate_jpgs] (1920, 640, 150), a
    master folder with a few files, and an upload helper that returns one
    URL per path and refuses to replace a remote file unless [overwrite]. *)
Module Demo.

(** The part of a path after the last [sep], and what precedes it. *)
Fixpoint split_last (sep : ascii) (l : list ascii) : option (list ascii * list ascii) :=
  match l with
  | [] => None
  | a :: r =>
      match split_last sep r with
      | Some (before, after) => Some (a :: before, after)
      | None => if Ascii.eqb a sep then Some ([], r) else None
      end
  end.

Definition name (p : string) : string :=
  match split_last "/"%char (list_ascii_of_string p) with
  | Some (_, after) => string_of_list_ascii after
  | None => p
  end.

(** [PurePath.suffix]: from the last dot of the name, unless that dot is the
    first or the last character. *)
Definition suffix (p : string) : string :=
  match split_last "."%char (list_ascii_of_string (name p)) with
  | Some (_ :: _, b :: after) => string_of_list_ascii ("."%char :: b :: after)
  | _ => ""
  end.

Definition stem (p : string) : string :=
  match split_last "."%char (list_ascii_of_string (name p)) with
  | Some (a :: before, _ :: _) => string_of_list_ascii (a :: before)
  | _ => name p
  end.

Definition join (a b : string) : string := a +:+ "/" +:+ b.

Definition masters : list string :=
  ["master/a.jpg"; "master/doc.pdf"; "master/bad.pdf"; "master/rot6.jpg";
   "master/scan.tif"; "master/notes.txt"].

Definition doc (filename : string) (legal contractual : option string) : jdoc :=
  let d : gmap string jvalue := {[ "filename" := JStr filename ]} in
  let d := match legal with Some s => <["other_restrictions" := JStr s]> d | None => d end in
  let d := match contractual with Some s => <["contractual_status" := JStr s]> d | None => d end in
  JObject d.

(** The encoded documents the demo decoder knows, by name. *)
Definition decode (s : string) : exn + jdoc :=
  if String.eqb s "photo" then inr (doc "a.jpg" (Some "0") (Some "3"))
  else if String.eqb s "cover" then inr (doc "doc.pdf" (Some "1;2") (Some "3;4"))
  else if String.eqb s "badpdf" then inr (doc "bad.pdf" (Some "0") (Some "4"))
  else if String.eqb s "restricted" then inr (doc "a.jpg" (Some "2") (Some "1"))
  else if String.eqb s "unlicensed" then inr (doc "a.jpg" (Some "1") (Some "2"))
  else if String.eqb s "bare" then inr (doc "a.jpg" None None)
  else if String.eqb s "nocontract" then inr (doc "a.jpg" (Some "0") None)
  else if String.eqb s "malformed" then inr (doc "a.jpg" (Some "abc") (Some "3"))
  else if String.eqb s "rot6" then inr (doc "rot6.jpg" (Some "0") (Some "3"))
  else if String.eqb s "scan" then inr (doc "scan.tif" (Some "0") (Some "3"))
  else inl JSONDecodeError.

Definition row (encoded : string) : gmap string string :=
  {[ "oasDataJsonEncoded" := encoded ]}.

Fixpoint width (img : image) : Z :=
  match img with
  | Opened _ => 3000
  | Thumbnail w _ i => Z.min w (width i)
  | Rotate _ i | Copy i | Watermark i | ConvertRGB i => width i
  end.

Definition exif (p : string) : gmap Z exif_value :=
  if String.eqb (stem p) "rot6" || String.eqb (stem p) "scan"
  then {[ 274 := ExifInt 6 ]} else ∅.

Definition upload (rem : list string) (paths : list string) (overwrite : bool)
    : list string * (exn + list string) :=
  if negb overwrite && bool_decide (Exists (λ p, p ∈ rem) paths)
  then (rem, inl (RuntimeError "remote file exists"))
  else ((rem ++ paths)%list, inr ((λ p, "https://cdn/" +:+ p) <$> paths)).

Definition world (rows : list (gmap string string)) : World := {|
  SAM_WATERMARK_WIDTH := 400;
  SAM_ACCESS_LARGE_SIZE := 1920;
  SAM_ACCESS_LARGE_PATH := "access/large";
  SAM_ACCESS_MEDIUM_SIZE := 640;
  SAM_ACCESS_MEDIUM_PATH := "access/medium";
  SAM_ACCESS_SMALL_SIZE := 150;
  SAM_ACCESS_SMALL_PATH := "access/small";
  SAM_ACCESS_PATH := "access";
  SAM_MASTER_PATH := "master";
  SAM_IMAGE_FORMATS := [".jpg"; ".png"; ".tif"];
  load_csv_from_sam := λ p, if String.eqb p "in.csv" then inr rows
                            else inl (OSError "No such file or directory");
  save_csv_to_sam := λ _ _, None;
  Remote := list string;
  upload_files := upload;
  json_loads := decode;
  path_join := join;
  path_stem := stem;
  path_suffix := suffix;
  path_name := name;
  disk_exists := λ p, bool_decide (p ∈ masters);
  disk_is_file := λ p, bool_decide (p ∈ masters);
  fitz_open := λ _ _, None;
  fitz_loadPage := λ _ _ _, None;
  fitz_getPixmap := λ _ _ _, None;
  fitz_writePNG := λ _ pdf _, if String.eqb (stem pdf) "bad"
                              then Some (OSError "cannot write image") else None;
  pil_open := λ _ _, OpenOk;
  pil_load := λ _ _, None;
  pil_has_getexif := λ _ p, String.eqb (suffix p) ".jpg";
  pil_getexif := λ _ p, Some (exif p);
  ExifTags_TAGS := [(256, "ImageWidth"); (274, "Orientation"); (306, "DateTime")];
  img_width := width;
  img_mode := λ _, "RGB";
  img_filename := λ img, match img with Opened p => Some p | _ => None end;
  pil_save := λ _ _ _ _, None;
|}.

End Demo.


(** The rotations inside an image's history, outermost first. *)
Fixpoint rotations (img : image) : list Z :=
  match img with
  | Opened _ => []
  | Rotate d i => d :: rotations i
  | Copy i | Thumbnail _ _ i | Watermark i | ConvertRGB i => rotations i
  end.

(** How one row changed the tally and the output rows. *)
Definition tally_change {W : World} (r r' : Run W)
    (dconverted dskipped dfailed duploaded : nat) (emitted : list OutputRecord) : Prop :=
  converted r' = (converted r + dconverted)%nat ∧
  skipped r' = (skipped r + dskipped)%nat ∧
  failed r' = (failed r + dfailed)%nat ∧
  uploaded r' = (uploaded r + duploaded)%nat ∧
  output r' = (output r ++ emitted)%list.

(** What a run does locally: the files it wrote, the generator calls it
    made, and the conversions and skips it counted. *)
Definition local_view {W : World} (r : Run W)
    : gmap string content * list jpg_call * nat * nat :=
  (files r, jpg_calls r, converted r, skipped r).


(** The fields of an output row that do not depend on the record. *)
Definition output_shape (o : OutputRecord) : Prop :=
  web_document_url o = "web_url" ∧
  (record_type o = "image" ∨ record_type o = "web_document").

(** The counter that goes up with every row that ends the loop body
    normally: the row was skipped, failed, or delivered (uploaded when an
    upload was requested, converted otherwise). *)
Definition rows_accounted {W : World} (upload : bool) (r : Run W) : nat :=
  (skipped r + failed r + (if upload then uploaded r else converted r))%nat.

(** The counter that goes with the output rows. *)
Definition rows_delivered {W : World} (upload : bool) (r : Run W) : nat :=
  if upload then uploaded r else converted r.

(** What one iteration of the loop can do to the books of a run: raise
    before anything is counted, skip, fail, deliver one output row, or
    convert and then fail to upload.  The rows handed to [save_csv_to_sam]
    are never touched, and the remote store only when an upload was
    requested. *)
Definition row_outcome {W : World} (upload : bool) (r r' : Run W) (res : exn + unit)
    : Prop :=
  saved_csv r' = saved_csv r ∧
  (upload = false → remote r' = remote r) ∧
  ((∃ e, res = inl e ∧ tally_change r r' 0 0 0 0 [] ∧ remote r' = remote r) ∨
   (res = inr tt ∧ tally_change r r' 0 1 0 0 [] ∧ remote r' = remote r) ∨
   (res = inr tt ∧ tally_change r r' 0 0 1 0 [] ∧ remote r' = remote r) ∨
   (res = inr tt ∧ upload = false ∧ ∃ o, output_shape o ∧ tally_change r r' 1 0 0 0 [o]) ∨
   (res = inr tt ∧ upload = true ∧ ∃ o, output_shape o ∧ tally_change r r' 1 0 0 1 [o]) ∨
   (res = inr tt ∧ upload = true ∧ tally_change r r' 1 0 1 0 [])).



(** * Properties *)

Ltac unfold_monad :=
  unfold mbind, M_bind, mret, M_ret, bind, ret, raise, try_except, get, modify,
    lift_result, lift_option, zoom in *.

(** ** Sanity checks of the string functions *)

Example py_int_plain : py_int "3" = Some 3.
Proof. reflexivity. Qed.

Example py_int_blanks : py_int "  12 " = Some 12.
Proof. reflexivity. Qed.

Example py_int_signed : py_int "-1" = Some (-1) ∧ py_int "+7" = Some 7.
Proof. split; reflexivity. Qed.

Example py_int_underscore : py_int "1_0" = Some 10 ∧ py_int "007" = Some 7.
Proof. split; reflexivity. Qed.

Example py_int_bad_underscore :
  py_int "1__0" = None ∧ py_int "_1" = None ∧ py_int "1_" = None.
Proof. repeat split; reflexivity. Qed.

Example py_int_rejects :
  py_int "" = None ∧ py_int "+" = None ∧ py_int "- 1" = None ∧ py_int "1.0" = None.
Proof. repeat split; reflexivity. Qed.

Example first_token_ex :
  first_token "0;2;3" = "0" ∧ first_token ";" = "" ∧ first_token "abc" = "abc".
Proof. repeat split; reflexivity. Qed.

(** ** The loop *)

Section Loop.
Context {S A : Type} (body : A → M S unit).


Lemma for_each_cons_raise x rest s s' e :
  body x s = (s', inl e) → for_each (x :: rest) body s = (s', inl e).
Proof. intros H. simpl. unfold_monad. by rewrite H. Qed.

Lemma for_each_app_raise before x after s s1 s2 e :
  for_each before body s = (s1, inr tt) →
  body x s1 = (s2, inl e) →
  for_each (before ++ x :: after) body s = (s2, inl e).
Proof.
  revert s. induction before as [|y before IH]; intros s Hb Hx.
  - simpl in Hb. unfold_monad. injection Hb as <-. by apply for_each_cons_raise.
  - simpl in Hb |- *. unfold_monad.
    destruct (body y s) as [s0 [e0|[]]]; [done|]. by apply IH.
Qed.

End Loop.

(** ** Rights filter *)

Section Rights.
Context (W : World) (watermark upload overwrite : bool).

Lemma process_row_decoded (file : gmap string string) encoded d fn (r : Run W) :
  file !! "oasDataJsonEncoded" = Some encoded →
  json_loads W encoded = inr (JObject d) →
  d !! "filename" = Some fn →
  process_row W watermark upload overwrite file r =
    match status_code (default (JStr "4") (d !! "other_restrictions")) with
    | inl e => (r, inl e)
    | inr legal =>
        if (legal >? 1)%Z then (bump_skipped (add_msg (MsgSkipLegal fn) r), inr tt)
        else match status_code (default (JStr "1") (d !! "contractual_status")) with
             | inl e => (r, inl e)
             | inr contractual =>
                 if (contractual <? 3)%Z
                 then (bump_skipped (add_msg (MsgSkipContractual fn) r), inr tt)
                 else process_master W watermark upload overwrite fn r
             end
    end.
Proof.
  intros Hf Hj Hfn. unfold process_row, print, incr_skipped. unfold_monad.
  rewrite Hf, Hj, Hfn.
  destruct (status_code (default (JStr "4") (d !! "other_restrictions"))) as [e|legal];
    [done|].
  destruct (legal >? 1)%Z; [done|].
  destruct (status_code (default (JStr "1") (d !! "contractual_status"))) as [e|c];
    [done|].
  by destruct (c <? 3)%Z.
Qed.

End Rights.

(** C2. When both leading tokens parse, a row is skipped for legal reasons
    if the legal code exceeds 1, otherwise skipped for contractual reasons
    if the contractual code is below 3, otherwise processing goes on with
    the master file.  The legal test comes first: a row failing both tests
    prints the legal message. *)
Theorem rights_filter_order (W : World) (watermark upload overwrite : bool)
    (file : gmap string string) encoded d fn ls cs (l c : Z) (r : Run W) :
  file !! "oasDataJsonEncoded" = Some encoded →
  json_loads W encoded = inr (JObject d) →
  d !! "filename" = Some fn →
  default (JStr "4") (d !! "other_restrictions") = JStr ls →
  default (JStr "1") (d !! "contractual_status") = JStr cs →
  py_int (first_token ls) = Some l →
  py_int (first_token cs) = Some c →
  process_row W watermark upload overwrite file r =
    if (l >? 1)%Z then (bump_skipped (add_msg (MsgSkipLegal fn) r), inr tt)
    else if (c <? 3)%Z then (bump_skipped (add_msg (MsgSkipContractual fn) r), inr tt)
    else process_master W watermark upload overwrite fn r.
Proof.
  intros Hf Hj Hfn Hl Hc Hpl Hpc.
  rewrite (process_row_decoded W _ _ _ file encoded d fn r Hf Hj Hfn).
  rewrite Hl, Hc. simpl. by rewrite Hpl, Hpc.
Qed.

Lemma rights_filter_order_witness :
  let W := Demo.world [] in
  process_row W false false false (Demo.row "restricted") (start W ∅ []) =
    (bump_skipped (add_msg (MsgSkipLegal (JStr "a.jpg")) (start W ∅ [])), inr tt).
Proof.
  intros W.
  apply (rights_filter_order W false false false (Demo.row "restricted") "restricted"
           (<["contractual_status" := JStr "1"]>
              (<["other_restrictions" := JStr "2"]> {[ "filename" := JStr "a.jpg" ]}))
           (JStr "a.jpg") "2" "1" 2 1 (start W ∅ []));
    vm_compute; reflexivity.
Defined.

Lemma first_token_no_semicolon (tok : string) :
  semicolon ∉ list_ascii_of_string tok → first_token tok = tok.
Proof.
  induction tok as [|a tok IH]; intros Hno; simpl.
  - reflexivity.
  - simpl in Hno. apply not_elem_of_cons in Hno as [Hne Hno].
    destruct (Ascii.eqb_spec a semicolon) as [->|_]; [done|].
    f_equal. by apply IH.
Qed.

Lemma first_token_before_semicolon (tok rest : string) :
  semicolon ∉ list_ascii_of_string tok →
  first_token (tok +:+ String semicolon rest) = tok.
Proof.
  induction tok as [|a tok IH]; intros Hno; simpl.
  - reflexivity.
  - simpl in Hno. apply not_elem_of_cons in Hno as [Hne Hno].
    destruct (Ascii.eqb_spec a semicolon) as [->|_]; [done|].
    f_equal. by apply IH.
Qed.

(** C3 (as the code has it). The code of a status is the integer literal
    before the first semicolon.  A status key that is missing defaults to
    legal 4 and contractual 1, so the row is skipped; a status that is
    present but whose leading token is not an integer literal raises
    [ValueError] out of the loop body, and the row is neither skipped nor
    tallied. *)
Theorem rights_defaults_and_errors (W : World) (watermark upload overwrite : bool)
    (file : gmap string string) encoded d fn (r : Run W) :
  file !! "oasDataJsonEncoded" = Some encoded →
  json_loads W encoded = inr (JObject d) →
  d !! "filename" = Some fn →
  (∀ tok rest, semicolon ∉ list_ascii_of_string tok →
     status_code (JStr (tok +:+ String semicolon rest)) = status_code (JStr tok)) ∧
  (d !! "other_restrictions" = None →
     process_row W watermark upload overwrite file r =
       (bump_skipped (add_msg (MsgSkipLegal fn) r), inr tt)) ∧
  (∀ ls l, d !! "other_restrictions" = Some (JStr ls) →
     py_int (first_token ls) = Some l → (l ≤ 1)%Z →
     d !! "contractual_status" = None →
     process_row W watermark upload overwrite file r =
       (bump_skipped (add_msg (MsgSkipContractual fn) r), inr tt)) ∧
  (∀ ls, d !! "other_restrictions" = Some (JStr ls) →
     py_int (first_token ls) = None →
     process_row W watermark upload overwrite file r =
       (r, inl (ValueError "invalid literal for int() with base 10"))) ∧
  (∀ ls l cs, d !! "other_restrictions" = Some (JStr ls) →
     py_int (first_token ls) = Some l → (l ≤ 1)%Z →
     d !! "contractual_status" = Some (JStr cs) →
     py_int (first_token cs) = None →
     process_row W watermark upload overwrite file r =
       (r, inl (ValueError "invalid literal for int() with base 10"))).
Proof.
  intros Hf Hj Hfn.
  rewrite (process_row_decoded W _ _ _ file encoded d fn r Hf Hj Hfn).
  repeat split.
  - intros tok rest Hno. unfold status_code.
    by rewrite first_token_before_semicolon, first_token_no_semicolon.
  - intros ->. reflexivity.
  - intros ls l -> Hl Hle ->. simpl. rewrite Hl.
    destruct (Z.gtb_spec l 1); [lia|]. reflexivity.
  - intros ls -> Hl. simpl. by rewrite Hl.
  - intros ls l cs -> Hl Hle -> Hc. simpl. rewrite Hl, Hc.
    destruct (Z.gtb_spec l 1); [lia|]. reflexivity.
Qed.

Lemma rights_defaults_and_errors_witness :
  let W := Demo.world [] in
  process_row W false false false (Demo.row "bare") (start W ∅ []) =
    (bump_skipped (add_msg (MsgSkipLegal (JStr "a.jpg")) (start W ∅ [])), inr tt) ∧
  process_row W false false false (Demo.row "nocontract") (start W ∅ []) =
    (bump_skipped (add_msg (MsgSkipContractual (JStr "a.jpg")) (start W ∅ [])), inr tt) ∧
  process_row W false false false (Demo.row "malformed") (start W ∅ []) =
    (start W ∅ [], inl (ValueError "invalid literal for int() with base 10")).
Proof.
  intros W. split; [|split].
  - refine (proj1 (proj2 (rights_defaults_and_errors W false false false
      (Demo.row "bare") "bare" {[ "filename" := JStr "a.jpg" ]} (JStr "a.jpg")
      (start W ∅ []) _ _ _)) _); vm_compute; reflexivity.
  - refine (proj1 (proj2 (proj2 (rights_defaults_and_errors W false false false
      (Demo.row "nocontract") "nocontract"
      (<["other_restrictions" := JStr "0"]> {[ "filename" := JStr "a.jpg" ]})
      (JStr "a.jpg") (start W ∅ []) _ _ _))) "0" 0 _ _ _ _);
      try (vm_compute; reflexivity). lia.
  - refine (proj1 (proj2 (proj2 (proj2 (rights_defaults_and_errors W false false false
      (Demo.row "malformed") "malformed"
      (<["contractual_status" := JStr "3"]>
         (<["other_restrictions" := JStr "abc"]> {[ "filename" := JStr "a.jpg" ]}))
      (JStr "a.jpg") (start W ∅ []) _ _ _)))) "abc" _ _);
      vm_compute; reflexivity.
Defined.

(** C3, refuted as stated: a present but malformed legal status ("abc")
    is not replaced by the default 4; the row raises [ValueError], the run
    stops there and the next row is never reached. *)
Lemma malformed_status_is_not_defaulted :
  let W := Demo.world [Demo.row "malformed"; Demo.row "photo"] in
  let res := generate_sam_access_files W "in.csv" "out.csv" false false false
               (start W ∅ []) in
  snd res = inl (ValueError "invalid literal for int() with base 10") ∧
  skipped (fst res) = 0%nat ∧ converted (fst res) = 0%nat ∧
  stdout (fst res) = [MsgCsvLoaded].
Proof. vm_compute. repeat split; reflexivity. Qed.

(** ** Equations of the pipeline steps *)

Section Steps.
Context (W : World) (watermark upload overwrite : bool).

Lemma set_files_same (r : Run W) : set_files (files r) r = r.
Proof. by destruct r. Qed.

Lemma call_generate_jpgs_eq filepath filesizes (r : Run W) :
  call_generate_jpgs W filepath filesizes watermark r =
    let (fs', res) := _generate_jpgs W filepath 80 filesizes watermark false (files r) in
    (set_files fs' (add_call (mkCall filepath 80 filesizes watermark false) r), res).
Proof. unfold call_generate_jpgs, log_call, on_files. unfold_monad. reflexivity. Qed.

Lemma convert_and_emit_raise filename filepath filesizes record_type (r r1 : Run W) e :
  call_generate_jpgs W filepath filesizes watermark r = (r1, inl e) →
  convert_and_emit W watermark upload overwrite filename filepath filesizes record_type r
    = (r1, inl e).
Proof. intros H. unfold convert_and_emit. unfold_monad. by rewrite H. Qed.

Lemma convert_and_emit_error filename filepath filesizes record_type (r r1 : Run W) resp :
  call_generate_jpgs W filepath filesizes watermark r = (r1, inr resp) →
  truthy (resp_error resp) = true →
  convert_and_emit W watermark upload overwrite filename filepath filesizes record_type r
    = (bump_failed (add_msg (MsgConvertError (default "" (resp_error resp))) r1), inr tt).
Proof.
  intros H Ht. unfold convert_and_emit, print, incr_failed. unfold_monad.
  by rewrite H, Ht.
Qed.

Lemma upload_step_raise filename s m large (r : Run W) rem e :
  upload_files W (remote r) ([s; m] ++ (if truthy large then [default "" large] else [])) overwrite
    = (rem, inl e) →
  upload_step W filename overwrite (Some s) (Some m) large r =
    (bump_failed (add_msg (MsgUploadFailed filename e) (set_remote rem r)), inr None).
Proof.
  intros H. unfold upload_step, call_upload, print, incr_failed. unfold_monad.
  by rewrite H.
Qed.

Lemma upload_step_short filename s m large (r : Run W) rem urls :
  upload_files W (remote r) ([s; m] ++ (if truthy large then [default "" large] else [])) overwrite
    = (rem, inr urls) →
  (List.length urls < 3)%nat →
  upload_step W filename overwrite (Some s) (Some m) large r =
    (bump_failed (add_msg (MsgUploadFailed filename IndexError) (set_remote rem r)), inr None).
Proof.
  intros H Hlen. unfold upload_step, call_upload, index, print, incr_failed.
  unfold_monad. rewrite H.
  destruct urls as [|u0 [|u1 [|u2 urls]]]; simpl in *; try reflexivity. lia.
Qed.

Lemma upload_step_ok filename s m large (r : Run W) rem u0 u1 u2 urls :
  upload_files W (remote r) ([s; m] ++ (if truthy large then [default "" large] else [])) overwrite
    = (rem, inr (u0 :: u1 :: u2 :: urls)) →
  upload_step W filename overwrite (Some s) (Some m) large r =
    (bump_uploaded (add_msg (MsgUploaded filename) (set_remote rem r)),
     inr (Some (Some u0, Some u1, Some u2))).
Proof.
  intros H. unfold upload_step, call_upload, index, print, incr_uploaded.
  unfold_monad. by rewrite H.
Qed.

Lemma process_master_pdf_raise name (r : Run W) fs' e :
  let filepath := path_join W (SAM_MASTER_PATH W) name in
  path_exists W (files r) filepath = true →
  path_is_file W (files r) filepath = true →
  path_suffix W filepath ∉ SAM_IMAGE_FORMATS W →
  path_suffix W filepath = ".pdf" →
  _convert_pdf_cover_to_image W filepath "./images/temp" (files r) = (fs', inl e) →
  process_master W watermark upload overwrite (JStr name) r = (set_files fs' r, inl e).
Proof.
  intros filepath Hex Hfile Hfmt Hpdf Hcover.
  unfold process_master, on_files. unfold_monad. fold filepath.
  rewrite Hex, Hfile. simpl.
  rewrite bool_decide_eq_false_2 by done.
  rewrite Hpdf. simpl. by rewrite Hcover.
Qed.

Lemma cover_write_error pdf_in out_folder (fs : gmap string content) e :
  fitz_open W fs pdf_in = None →
  fitz_loadPage W fs pdf_in 0 = None →
  fitz_getPixmap W fs pdf_in 0 = None →
  fitz_writePNG W fs pdf_in (path_join W out_folder (path_stem W pdf_in) +:+ ".png") = Some e →
  _convert_pdf_cover_to_image W pdf_in out_folder fs = (fs, inl (PDFConvertError e)).
Proof.
  intros Ho Hl Hp Hw. unfold _convert_pdf_cover_to_image. unfold_monad.
  by rewrite Ho, Hl, Hp, Hw.
Qed.


Lemma generate_row_error csv_in csv_out (before : list (gmap string string)) file after
    (r r1 r2 : Run W) e :
  load_csv_from_sam W csv_in = inr (before ++ file :: after)%list →
  for_each before (process_row W watermark upload overwrite) (add_msg MsgCsvLoaded r)
    = (r1, inr tt) →
  process_row W watermark upload overwrite file r1 = (r2, inl e) →
  generate_sam_access_files W csv_in csv_out watermark upload overwrite r = (r2, inl e).
Proof.
  intros Hload Hbefore Hrow.
  pose proof (for_each_app_raise _ before file after _ _ _ e Hbefore Hrow) as Hloop.
  unfold generate_sam_access_files, print. unfold_monad.
  rewrite Hload. by rewrite Hloop.
Qed.

End Steps.

Section Caught.
Context (W : World) (watermark overwrite : bool).


Lemma generate_jpgs_open_failed img_in quality sizes ow (fs : gmap string content) :
  pil_open W fs img_in ≠ OpenOk →
  ∃ err, _generate_jpgs W img_in quality sizes watermark ow fs
           = (fs, inr (mkResp ∅ (Some err))) ∧ truthy (Some err) = true.
Proof.
  intros Hopen. unfold _generate_jpgs. unfold_monad.
  destruct (pil_open W fs img_in); [done| |]; eexists; split; reflexivity.
Qed.

Lemma convert_and_emit_open_failed upload filename filepath filesizes record_type (r : Run W) :
  pil_open W (files r) filepath ≠ OpenOk →
  ∃ err, convert_and_emit W watermark upload overwrite filename filepath filesizes
           record_type r
         = (bump_failed (add_msg (MsgConvertError err)
              (add_call (mkCall filepath 80 filesizes watermark false) r)), inr tt).
Proof.
  intros Hopen.
  destruct (generate_jpgs_open_failed filepath 80 filesizes false (files r) Hopen)
    as (err & Hgen & Herr).
  exists err.
  apply (convert_and_emit_error W watermark upload overwrite filename filepath
           filesizes record_type r
           (add_call (mkCall filepath 80 filesizes watermark false) r)
           (mkResp ∅ (Some err))); [|exact Herr].
  rewrite call_generate_jpgs_eq. simpl. rewrite Hgen.
  by rewrite (set_files_same W (add_call _ r)).
Qed.


End Caught.


(** C4 (as the code has it). When the first page renders and writing the
    PNG fails with [e], cover extraction raises [PDFConvertError] carrying
    [e]; the pipeline has no handler for it, so the exception leaves
    [generate_sam_access_files] at that row and no later row is
    processed. *)
Theorem pdf_cover_error_ends_the_run (W : World) (watermark upload overwrite : bool)
    (csv_in csv_out : string) (before : list (gmap string string)) file after
    encoded d name ls cs (l c : Z) e (r0 r : Run W) :
  load_csv_from_sam W csv_in = inr (before ++ file :: after)%list →
  for_each before (process_row W watermark upload overwrite) (add_msg MsgCsvLoaded r0)
    = (r, inr tt) →
  file !! "oasDataJsonEncoded" = Some encoded →
  json_loads W encoded = inr (JObject d) →
  d !! "filename" = Some (JStr name) →
  default (JStr "4") (d !! "other_restrictions") = JStr ls →
  default (JStr "1") (d !! "contractual_status") = JStr cs →
  py_int (first_token ls) = Some l → (l ≤ 1)%Z →
  py_int (first_token cs) = Some c → (3 ≤ c)%Z →
  let filepath := path_join W (SAM_MASTER_PATH W) name in
  path_exists W (files r) filepath = true →
  path_is_file W (files r) filepath = true →
  path_suffix W filepath ∉ SAM_IMAGE_FORMATS W →
  path_suffix W filepath = ".pdf" →
  fitz_open W (files r) filepath = None →
  fitz_loadPage W (files r) filepath 0 = None →
  fitz_getPixmap W (files r) filepath 0 = None →
  fitz_writePNG W (files r) filepath
    (path_join W "./images/temp" (path_stem W filepath) +:+ ".png") = Some e →
  _convert_pdf_cover_to_image W filepath "./images/temp" (files r)
    = (files r, inl (PDFConvertError e)) ∧
  generate_sam_access_files W csv_in csv_out watermark upload overwrite r0
    = (r, inl (PDFConvertError e)).
Proof.
  intros Hload Hbefore Hf Hj Hfn Hls Hcs Hl Hle Hc Hge filepath
    Hex Hfile Hfmt Hpdf Ho Hlp Hpx Hw.
  pose proof (cover_write_error W filepath "./images/temp" (files r) e Ho Hlp Hpx Hw)
    as Hcover.
  split; [exact Hcover|].
  eapply generate_row_error; [exact Hload|exact Hbefore|].
  rewrite (process_row_decoded W _ _ _ file encoded d (JStr name) r Hf Hj Hfn).
  rewrite Hls, Hcs. unfold status_code. rewrite Hl, Hc.
  destruct (Z.gtb_spec l 1); [lia|].
  destruct (Z.ltb_spec c 3); [lia|].
  rewrite (process_master_pdf_raise W _ _ _ name r (files r) (PDFConvertError e)
             Hex Hfile Hfmt Hpdf Hcover).
  by rewrite set_files_same.
Qed.

Lemma pdf_cover_error_ends_the_run_witness :
  let W := Demo.world [Demo.row "photo"; Demo.row "badpdf"; Demo.row "photo"] in
  let r := fst (process_row W false false false (Demo.row "photo")
                  (add_msg MsgCsvLoaded (start W ∅ []))) in
  _convert_pdf_cover_to_image W "master/bad.pdf" "./images/temp" (files r)
    = (files r, inl (PDFConvertError (OSError "cannot write image"))) ∧
  generate_sam_access_files W "in.csv" "out.csv" false false false (start W ∅ [])
    = (r, inl (PDFConvertError (OSError "cannot write image"))).
Proof.
  intros W r.
  apply (pdf_cover_error_ends_the_run W false false false "in.csv" "out.csv"
           [Demo.row "photo"] (Demo.row "badpdf") [Demo.row "photo"] "badpdf"
           (<["contractual_status" := JStr "4"]>
              (<["other_restrictions" := JStr "0"]> {[ "filename" := JStr "bad.pdf" ]}))
           "bad.pdf" "0" "4" 0 4 (OSError "cannot write image") (start W ∅ []) r);
    try (vm_compute; reflexivity); try lia.
  compute_done.
Defined.

(** C4, refuted as stated: a PDF whose cover cannot be written does not
    fail on its own; the run ends with [PDFConvertError] and the valid row
    after it is never converted. *)
Lemma pdf_error_is_fatal_to_the_batch :
  let W := Demo.world [Demo.row "badpdf"; Demo.row "photo"] in
  let res := generate_sam_access_files W "in.csv" "out.csv" false false false
               (start W ∅ []) in
  snd res = inl (PDFConvertError (OSError "cannot write image")) ∧
  failed (fst res) = 0%nat ∧ converted (fst res) = 0%nat ∧
  output (fst res) = [] ∧ saved_csv (fst res) = None ∧
  stdout (fst res) = [MsgCsvLoaded].
Proof. vm_compute. repeat split; reflexivity. Qed.

(** ** The generator *)

Section Generator.
Context (W : World).

Lemma jpg_size_exists img_in img quality watermark resp size (fs : gmap string content) :
  path_exists W fs (out_file W img_in size) = true →
  jpg_size W img_in img quality watermark false resp size fs =
    (fs, inr (mkResp (resp_paths resp)
                (Some ("File already exists: " +:+ out_file W img_in size)))).
Proof. intros Hex. unfold jpg_size. unfold_monad. by rewrite Hex. Qed.

(** What one size leaves behind: the files as they were, or one more JPEG
    holding the sized copy. *)
Lemma jpg_size_files img_in img quality watermark overwrite resp size
    (fs fs' : gmap string content) res :
  jpg_size W img_in img quality watermark overwrite resp size fs = (fs', res) →
  fs' = fs ∨
  fs' = <[out_file W img_in size := Jpeg (sized_copy W img watermark size) quality]> fs.
Proof.
  unfold jpg_size. unfold_monad. intros H.
  repeat case_match; simplify_eq; auto.
Qed.

Lemma jpg_size_error img_in img quality watermark overwrite resp resp' size
    (fs fs' : gmap string content) :
  jpg_size W img_in img quality watermark overwrite resp size fs = (fs', inr resp') →
  resp_error resp' = resp_error resp ∨ truthy (resp_error resp') = true.
Proof.
  unfold jpg_size. unfold_monad. intros H.
  repeat case_match; simplify_eq; simpl; auto.
Qed.

Lemma jpg_sizes_error img_in img quality watermark overwrite sizes resp resp'
    (fs fs' : gmap string content) :
  jpg_sizes W img_in img quality watermark overwrite sizes resp fs = (fs', inr resp') →
  resp_error resp' = resp_error resp ∨ truthy (resp_error resp') = true.
Proof.
  revert resp fs. induction sizes as [|size rest IH]; intros resp fs H; simpl in H.
  - unfold_monad. simplify_eq. by left.
  - unfold_monad.
    destruct (jpg_size W img_in img quality watermark overwrite resp size fs)
      as [fs1 [e|resp1]] eqn:Hstep; [done|].
    apply jpg_size_error in Hstep. apply IH in H.
    destruct H as [H|H]; [|by right].
    rewrite H. exact Hstep.
Qed.

(** An error recorded by the generator is never the empty string, so the
    caller's test [convert_resp.get("error")] sees every recorded error. *)
Lemma generator_error_truthy img_in quality sizes watermark overwrite
    (fs fs' : gmap string content) resp :
  _generate_jpgs W img_in quality sizes watermark overwrite fs = (fs', inr resp) →
  is_Some (resp_error resp) → truthy (resp_error resp) = true.
Proof.
  unfold _generate_jpgs. unfold_monad. intros H [err Herr].
  destruct (pil_open W fs img_in).
  - destruct (pil_load W fs img_in); simpl in H; [done|].
    apply jpg_sizes_error in H as [H|H]; [|done].
    simpl in H. congruence.
  - by simplify_eq.
  - by simplify_eq.
Qed.

Lemma jpg_sizes_files img_in img quality watermark overwrite sizes resp
    (fs fs' : gmap string content) res p c :
  jpg_sizes W img_in img quality watermark overwrite sizes resp fs = (fs', res) →
  fs' !! p = Some c →
  fs !! p = Some c ∨
  ∃ size, size ∈ sizes ∧ c = Jpeg (sized_copy W img watermark size) quality.
Proof.
  revert resp fs. induction sizes as [|size rest IH]; intros resp fs H Hp; simpl in H.
  - unfold_monad. simplify_eq. by left.
  - unfold_monad.
    destruct (jpg_size W img_in img quality watermark overwrite resp size fs)
      as [fs1 [e|resp1]] eqn:Hstep.
    + simplify_eq. apply jpg_size_files in Hstep as [->| ->]; [by left|].
      destruct (decide (out_file W img_in size = p)) as [<-|Hne].
      * rewrite lookup_insert_eq in Hp. simplify_eq. right. exists size.
        split; [apply list_elem_of_here|done].
      * rewrite lookup_insert_ne in Hp by done. by left.
    + destruct (IH _ _ H Hp) as [Hin|(sz & Hin & ->)].
      * apply jpg_size_files in Hstep as [->| ->]; [by left|].
        destruct (decide (out_file W img_in size = p)) as [<-|Hne].
        -- rewrite lookup_insert_eq in Hin. simplify_eq. right. exists size.
           split; [apply list_elem_of_here|done].
        -- rewrite lookup_insert_ne in Hin by done. by left.
      * right. exists sz. split; [by apply list_elem_of_further|done].
Qed.

Lemma generate_jpgs_files img_in quality sizes watermark overwrite
    (fs fs' : gmap string content) res p c :
  _generate_jpgs W img_in quality sizes watermark overwrite fs = (fs', res) →
  fs' !! p = Some c →
  fs !! p = Some c ∨
  ∃ size, size ∈ sizes ∧
    c = Jpeg (sized_copy W (fix_orientation W fs img_in (Opened img_in)) watermark size)
          quality.
Proof.
  unfold _generate_jpgs. unfold_monad. intros H Hp.
  destruct (pil_open W fs img_in); [|simplify_eq; by left..].
  destruct (pil_load W fs img_in); simpl in H; [simplify_eq; by left|].
  by eapply jpg_sizes_files.
Qed.

Lemma rotations_sized_copy img watermark size :
  rotations (sized_copy W img watermark size) = rotations img.
Proof. unfold sized_copy. by repeat case_match. Qed.

Lemma rotations_fix_orientation (fs : gmap string content) img_in :
  rotations (fix_orientation W fs img_in (Opened img_in)) =
    if pil_has_getexif W fs img_in then
      match pil_getexif W fs img_in with
      | Some exif =>
          match orientation_key W ≫= (λ k, exif !! k) with
          | Some (ExifInt 3) => [180]
          | Some (ExifInt 6) => [270]
          | Some (ExifInt 8) => [90]
          | _ => []
          end
      | None => []
      end
    else [].
Proof. unfold fix_orientation. by repeat case_match. Qed.

End Generator.





(** C7 (as the code has it). Every JPEG the generator writes holds the
    sized copy of one image: the opened source, rotated at most once
    before the loop over the sizes.  The rotation is looked up only when
    the image object has the [_getexif] accessor and [getexif()] is not
    [None]: orientation 3 gives 180 degrees, 6 gives 270, 8 gives 90, any
    other or missing value none.  An image without the accessor is never
    rotated, whatever its orientation tag.  Nothing in the per-size steps
    rotates. *)
Theorem exif_rotation_once_before_sizes (W : World) img_in quality sizes
    (watermark overwrite : bool) (fs fs' : gmap string content) res p c :
  _generate_jpgs W img_in quality sizes watermark overwrite fs = (fs', res) →
  fs' !! p = Some c →
  fs !! p ≠ Some c →
  ∃ size,
    size ∈ sizes ∧
    c = Jpeg (sized_copy W (fix_orientation W fs img_in (Opened img_in)) watermark size)
          quality ∧
    rotations (sized_copy W (fix_orientation W fs img_in (Opened img_in)) watermark size)
      = rotations (fix_orientation W fs img_in (Opened img_in)) ∧
    rotations (fix_orientation W fs img_in (Opened img_in)) =
      if pil_has_getexif W fs img_in then
        match pil_getexif W fs img_in with
        | Some exif =>
            match orientation_key W ≫= (λ k, exif !! k) with
            | Some (ExifInt 3) => [180]
            | Some (ExifInt 6) => [270]
            | Some (ExifInt 8) => [90]
            | _ => []
            end
        | None => []
        end
      else [].
Proof.
  intros Hgen Hp Hnew.
  destruct (generate_jpgs_files W _ _ _ _ _ _ _ _ _ _ Hgen Hp) as [Hold|(size & Hin & Hc)];
    [done|].
  exists size. split; [exact Hin|]. split; [exact Hc|]. split.
  - apply rotations_sized_copy.
  - apply rotations_fix_orientation.
Qed.

Lemma exif_rotation_once_before_sizes_witness :
  let W := Demo.world [] in
  ∃ size,
    size ∈ [640; 150] ∧
    rotations (sized_copy W (fix_orientation W ∅ "master/rot6.jpg"
                               (Opened "master/rot6.jpg")) false size) = [270].
Proof.
  intros W.
  destruct (exif_rotation_once_before_sizes W "master/rot6.jpg" 80 [640; 150] false false
              ∅ (fst (_generate_jpgs W "master/rot6.jpg" 80 [640; 150] false false ∅))
              (snd (_generate_jpgs W "master/rot6.jpg" 80 [640; 150] false false ∅))
              "access/small/rot6.jpg"
              (Jpeg (Thumbnail 150 150 (Copy (Rotate 270 (Opened "master/rot6.jpg")))) 80))
    as (size & Hin & _ & Hrot & Hfix).
  - vm_compute; reflexivity.
  - vm_compute; reflexivity.
  - vm_compute. discriminate.
  - exists size. split; [exact Hin|]. rewrite Hrot, Hfix. vm_compute; reflexivity.
Defined.

(** C7, refuted as stated: a TIFF master carries orientation 6 in its EXIF
    data, but the image object has no [_getexif] accessor, so the copy that
    is written is not rotated. *)
Lemma orientation_tag_without_accessor_is_ignored :
  let W := Demo.world [] in
  let res := _generate_jpgs W "master/scan.tif" 80 [150] false false ∅ in
  orientation_key W = Some 274 ∧
  (pil_getexif W ∅ "master/scan.tif" ≫= (λ exif, exif !! 274)) = Some (ExifInt 6) ∧
  pil_has_getexif W ∅ "master/scan.tif" = false ∧
  fst res !! "access/small/scan.jpg"
    = Some (Jpeg (Thumbnail 150 150 (Copy (Opened "master/scan.tif"))) 80).
Proof. vm_compute. repeat split; reflexivity. Qed.

(** ** Tally *)

Section Tally.
Context (W : World) (watermark upload overwrite : bool).

(** The three ways the upload step can end. *)
Lemma upload_step_cases filename small medium large (r : Run W) :
  (∃ e, upload_step W filename overwrite small medium large r = (r, inl e)) ∨
  (∃ rem e, upload_step W filename overwrite small medium large r =
     (bump_failed (add_msg (MsgUploadFailed filename e) (set_remote rem r)), inr None)) ∨
  (∃ rem u0 u1 u2, upload_step W filename overwrite small medium large r =
     (bump_uploaded (add_msg (MsgUploaded filename) (set_remote rem r)),
      inr (Some (Some u0, Some u1, Some u2)))).
Proof.
  destruct small as [s|]; [|left; by eexists].
  destruct medium as [m|]; [|left; by eexists].
  destruct (upload_files W (remote r)
              ([s; m] ++ (if truthy large then [default "" large] else [])) overwrite)
    as [rem [e|urls]] eqn:Hup.
  - right; left. exists rem, e. by apply upload_step_raise.
  - destruct urls as [|u0 [|u1 [|u2 urls]]].
    1-3: right; left; exists rem, IndexError;
         apply (upload_step_short W overwrite filename s m large r rem _ Hup);
         simpl; lia.
    right; right. exists rem, u0, u1, u2. by eapply upload_step_ok.
Qed.

(** The six ways the step from the generator call to the output row can
    end. *)
Lemma convert_and_emit_cases filename filepath filesizes record_type (r : Run W) :
  ∃ fs',
    let r1 := set_files fs' (add_call (mkCall filepath 80 filesizes watermark false) r) in
    let r2 := bump_converted (add_msg (MsgConverted filename) r1) in
    let result := convert_and_emit W watermark upload overwrite filename filepath
                    filesizes record_type r in
    (∃ e, result = (r1, inl e)) ∨
    (∃ err, result = (bump_failed (add_msg (MsgConvertError err) r1), inr tt)) ∨
    (upload = false ∧ ∃ o, result = (add_output o r2, inr tt)) ∨
    (upload = true ∧ ∃ e, result = (r2, inl e)) ∨
    (upload = true ∧ ∃ rem e,
       result = (bump_failed (add_msg (MsgUploadFailed filename e) (set_remote rem r2)),
                 inr tt)) ∨
    (upload = true ∧ ∃ rem o,
       result = (add_output o
                   (bump_uploaded (add_msg (MsgUploaded filename) (set_remote rem r2))),
                 inr tt)).
Proof.
  unfold convert_and_emit, print, incr_failed, incr_converted, append_output.
  unfold_monad. rewrite call_generate_jpgs_eq.
  destruct (_generate_jpgs W filepath 80 filesizes watermark false (files r))
    as [fs' [e|resp]]; exists fs'; simpl.
  { left. by eexists. }
  destruct (truthy (resp_error resp)).
  { right; left. by eexists. }
  destruct upload.
  - set (r2 := bump_converted (add_msg (MsgConverted filename) _)).
    destruct (upload_step_cases filename
                (resp_paths resp !! SAM_ACCESS_SMALL_SIZE W)
                (resp_paths resp !! SAM_ACCESS_MEDIUM_SIZE W)
                (resp_paths resp !! SAM_ACCESS_LARGE_SIZE W) r2)
      as [(e & ->)|[(rem & e & ->)|(rem & u0 & u1 & u2 & ->)]].
    + do 3 right; left. split; [done|]. by eexists.
    + do 4 right; left. split; [done|]. by exists rem, e.
    + do 5 right. split; [done|]. exists rem. by eexists.
  - do 2 right; left. split; [done|]. by eexists.
Qed.




End Tally.




(** ** Upload of a record without a large copy *)

(** When the helper returns one URL per path, a record without a large
    copy gets two URLs, [urls[2]] raises [IndexError] inside the [try], and
    the upload is reported as failed. *)
Lemma two_urls_never_upload (W : World) (overwrite : bool) filename s m
    (r : Run W) rem u0 u1 :
  upload_files W (remote r) [s; m] overwrite = (rem, inr [u0; u1]) →
  upload_step W filename overwrite (Some s) (Some m) None r =
    (bump_failed (add_msg (MsgUploadFailed filename IndexError) (set_remote rem r)),
     inr None).
Proof.
  intros Hup.
  apply (upload_step_short W overwrite filename s m None r rem [u0; u1] Hup).
  simpl. lia.
Qed.

(** C5, the code at the failing input: one PDF row, upload requested, the
    helper returns a URL for each path it is given.  Both files reach the
    remote store, yet the record is tallied as failed, not as uploaded, and
    no output row is emitted. *)
Theorem pdf_record_upload_index_error :
  let W := Demo.world [Demo.row "cover"] in
  let res := generate_sam_access_files W "in.csv" "out.csv" false true false
               (start W ∅ []) in
  snd res = inr tt ∧
  remote (fst res) = ["access/small/doc.jpg"; "access/medium/doc.jpg"] ∧
  stdout (fst res) = [MsgCsvLoaded; MsgConverted "doc.pdf";
                      MsgUploadFailed "doc.pdf" IndexError; MsgDone;
                      MsgSummary 1 0 1 0] ∧
  output (fst res) = [] ∧
  (converted (fst res), skipped (fst res), failed (fst res), uploaded (fst res))
    = (1, 0, 1, 0)%nat.
Proof. vm_compute. repeat split; reflexivity. Qed.

(** ** The overwrite argument *)

Ltac solve_local H :=
  unfold local_view in *; simpl in *; injection H; intros;
  repeat split; congruence.

Section Overwrite.
Context (W : World) (watermark upload : bool).

Lemma upload_step_some_cases overwrite filename s m large (r : Run W) :
  (∃ rem e, upload_step W filename overwrite (Some s) (Some m) large r =
     (bump_failed (add_msg (MsgUploadFailed filename e) (set_remote rem r)), inr None)) ∨
  (∃ rem u0 u1 u2, upload_step W filename overwrite (Some s) (Some m) large r =
     (bump_uploaded (add_msg (MsgUploaded filename) (set_remote rem r)),
      inr (Some (Some u0, Some u1, Some u2)))).
Proof.
  destruct (upload_step_cases W overwrite filename (Some s) (Some m) large r)
    as [(e & H)|[H|H]]; [|by left|by right].
  unfold upload_step, call_upload, index, try_except in H. unfold_monad.
  destruct (upload_files W (remote r) _ overwrite) as [rem [e'|urls]]; [done|].
  by destruct urls as [|u0 [|u1 [|u2 urls]]].
Qed.

Lemma convert_and_emit_local ow1 ow2 filename filepath filesizes record_type
    (r1 r2 : Run W) :
  local_view r1 = local_view r2 →
  local_view (fst (convert_and_emit W watermark upload ow1 filename filepath filesizes
                     record_type r1))
    = local_view (fst (convert_and_emit W watermark upload ow2 filename filepath
                         filesizes record_type r2)) ∧
  snd (convert_and_emit W watermark upload ow1 filename filepath filesizes record_type r1)
    = snd (convert_and_emit W watermark upload ow2 filename filepath filesizes
             record_type r2).
Proof.
  intros Hloc.
  assert (Hfiles : files r1 = files r2) by (unfold local_view in Hloc; by simplify_eq).
  unfold convert_and_emit, print, incr_failed, incr_converted, append_output.
  unfold_monad. rewrite !call_generate_jpgs_eq, Hfiles.
  destruct (_generate_jpgs W filepath 80 filesizes watermark false (files r2))
    as [fs' [e|resp]]; simpl.
  { solve_local Hloc. }
  destruct (truthy (resp_error resp)); simpl.
  { solve_local Hloc. }
  destruct upload; simpl.
  - destruct (resp_paths resp !! SAM_ACCESS_SMALL_SIZE W) as [s|];
      [|solve_local Hloc].
    destruct (resp_paths resp !! SAM_ACCESS_MEDIUM_SIZE W) as [m|];
      [|solve_local Hloc].
    set (large := resp_paths resp !! SAM_ACCESS_LARGE_SIZE W).
    match goal with
    | |- context [upload_step W filename ow1 _ _ _ ?x] => set (s1 := x)
    end.
    match goal with
    | |- context [upload_step W filename ow2 _ _ _ ?x] => set (s2 := x)
    end.
    destruct (upload_step_some_cases ow1 filename s m large s1)
      as [(rem1 & e1 & ->)|(rem1 & a0 & a1 & a2 & ->)];
      destruct (upload_step_some_cases ow2 filename s m large s2)
        as [(rem2 & e2 & ->)|(rem2 & b0 & b1 & b2 & ->)];
      subst s1 s2; solve_local Hloc.
  - solve_local Hloc.
Qed.

Lemma process_master_local ow1 ow2 filename (r1 r2 : Run W) :
  local_view r1 = local_view r2 →
  local_view (fst (process_master W watermark upload ow1 filename r1))
    = local_view (fst (process_master W watermark upload ow2 filename r2)) ∧
  snd (process_master W watermark upload ow1 filename r1)
    = snd (process_master W watermark upload ow2 filename r2).
Proof.
  intros Hloc.
  assert (Hfiles : files r1 = files r2) by (unfold local_view in Hloc; by simplify_eq).
  unfold process_master, on_files, print, incr_failed, incr_skipped. unfold_monad.
  destruct filename as [| | |name|]; try done.
  rewrite Hfiles.
  destruct (path_exists W (files r2) _); simpl; [|solve_local Hloc].
  destruct (path_is_file W (files r2) _); simpl; [|solve_local Hloc].
  destruct (bool_decide _).
  { by apply convert_and_emit_local. }
  destruct (String.eqb _ ".pdf"); [|solve_local Hloc].
  rewrite ?Hfiles.
  destruct (_convert_pdf_cover_to_image W _ _ (files r2)) as [fs' [e|cover]];
    [solve_local Hloc|].
  apply convert_and_emit_local. solve_local Hloc.
Qed.

Lemma process_row_local ow1 ow2 file (r1 r2 : Run W) :
  local_view r1 = local_view r2 →
  local_view (fst (process_row W watermark upload ow1 file r1))
    = local_view (fst (process_row W watermark upload ow2 file r2)) ∧
  snd (process_row W watermark upload ow1 file r1)
    = snd (process_row W watermark upload ow2 file r2).
Proof.
  intros Hloc.
  unfold process_row, print, incr_skipped. unfold_monad.
  destruct (file !! "oasDataJsonEncoded") as [encoded|]; [|done].
  destruct (json_loads W encoded) as [e|[d|v]]; [done| |done].
  destruct (d !! "filename") as [fn|]; [|done].
  destruct (status_code (default (JStr "4") (d !! "other_restrictions")))
    as [e|legal]; [done|].
  destruct (legal >? 1)%Z; [solve_local Hloc|].
  destruct (status_code (default (JStr "1") (d !! "contractual_status")))
    as [e|contractual]; [done|].
  destruct (contractual <? 3)%Z; [solve_local Hloc|].
  by apply process_master_local.
Qed.

Lemma for_each_local ow1 ow2 rows (r1 r2 : Run W) :
  local_view r1 = local_view r2 →
  local_view (fst (for_each rows (process_row W watermark upload ow1) r1))
    = local_view (fst (for_each rows (process_row W watermark upload ow2) r2)) ∧
  snd (for_each rows (process_row W watermark upload ow1) r1)
    = snd (for_each rows (process_row W watermark upload ow2) r2).
Proof.
  revert r1 r2. induction rows as [|file rows IH]; intros r1 r2 Hloc; [done|].
  simpl. unfold_monad.
  destruct (process_row_local ow1 ow2 file r1 r2 Hloc) as [Hview Hres].
  destruct (process_row W watermark upload ow1 file r1) as [r1' res1].
  destruct (process_row W watermark upload ow2 file r2) as [r2' res2].
  simpl in Hview, Hres. subst res2.
  destruct res1 as [e|[]]; [done|]. by apply IH.
Qed.

(** The generator calls of a row never carry [overwrite=True]. *)
Lemma convert_and_emit_calls overwrite filename filepath filesizes record_type
    (r : Run W) :
  Forall (λ c, call_overwrite c = false) (jpg_calls r) →
  Forall (λ c, call_overwrite c = false)
    (jpg_calls (fst (convert_and_emit W watermark upload overwrite filename filepath
                       filesizes record_type r))).
Proof.
  intros Hcalls.
  destruct (convert_and_emit_cases W watermark upload overwrite filename filepath
              filesizes record_type r) as (fs' & Hcases).
  simpl in Hcases.
  destruct Hcases as [(e & ->)|[(err & ->)|[(_ & o & ->)|[(_ & e & ->)|
                     [(_ & rem & e & ->)|(_ & rem & o & ->)]]]]]; simpl;
    apply Forall_app; (split; [exact Hcalls|]); by apply Forall_singleton.
Qed.

Lemma process_row_calls overwrite file (r : Run W) :
  Forall (λ c, call_overwrite c = false) (jpg_calls r) →
  Forall (λ c, call_overwrite c = false)
    (jpg_calls (fst (process_row W watermark upload overwrite file r))).
Proof.
  intros Hcalls.
  unfold process_row, process_master, on_files, print, incr_skipped, incr_failed.
  unfold_monad.
  destruct (file !! "oasDataJsonEncoded") as [encoded|]; [|done].
  destruct (json_loads W encoded) as [e|[d|v]]; [done| |done].
  destruct (d !! "filename") as [fn|]; [|done].
  destruct (status_code (default (JStr "4") (d !! "other_restrictions")))
    as [e|legal]; [done|].
  destruct (legal >? 1)%Z; [done|].
  destruct (status_code (default (JStr "1") (d !! "contractual_status")))
    as [e|contractual]; [done|].
  destruct (contractual <? 3)%Z; [done|].
  destruct fn as [| | |name|]; try done.
  destruct (path_exists W (files r) _); simpl; [|done].
  destruct (path_is_file W (files r) _); simpl; [|done].
  destruct (bool_decide _).
  { by apply convert_and_emit_calls. }
  destruct (String.eqb _ ".pdf"); [|done].
  destruct (_convert_pdf_cover_to_image W _ _ (files r)) as [fs' [e|cover]];
    [done|].
  by apply convert_and_emit_calls.
Qed.

Lemma for_each_calls overwrite rows (r : Run W) :
  Forall (λ c, call_overwrite c = false) (jpg_calls r) →
  Forall (λ c, call_overwrite c = false)
    (jpg_calls (fst (for_each rows (process_row W watermark upload overwrite) r))).
Proof.
  revert r. induction rows as [|file rows IH]; intros r Hcalls; [done|].
  simpl. unfold_monad.
  pose proof (process_row_calls overwrite file r Hcalls) as Hrow.
  destruct (process_row W watermark upload overwrite file r) as [r' [e|[]]];
    [done|]. by apply IH.
Qed.

(** After the loop nothing local changes any more. *)
Lemma generate_local_view csv_in csv_out overwrite (r : Run W) :
  local_view (fst (generate_sam_access_files W csv_in csv_out watermark upload
                     overwrite r))
    = match load_csv_from_sam W csv_in with
      | inl _ => local_view r
      | inr rows =>
          local_view (fst (for_each rows (process_row W watermark upload overwrite)
                             (add_msg MsgCsvLoaded r)))
      end.
Proof.
  unfold generate_sam_access_files, write_csv, print. unfold_monad.
  destruct (load_csv_from_sam W csv_in) as [e|rows]; [done|].
  destruct (for_each rows _ _) as [r' [e|[]]]; [done|].
  destruct (output r') as [|o out]; [done|].
  by destruct (save_csv_to_sam W (o :: out) csv_out).
Qed.

End Overwrite.

(** C10. Two runs that differ only in [overwrite] write the same files,
    make the same generator calls and count the same conversions and
    skips; every generator call is made with [overwrite=False].  The
    argument reaches the upload helper only. *)
Theorem overwrite_only_reaches_upload (W : World) (csv_in csv_out : string)
    (watermark upload ow1 ow2 : bool) (fs : gmap string content) (rem : Remote W) :
  let run1 := fst (generate_sam_access_files W csv_in csv_out watermark upload ow1
                     (start W fs rem)) in
  let run2 := fst (generate_sam_access_files W csv_in csv_out watermark upload ow2
                     (start W fs rem)) in
  local_view run1 = local_view run2 ∧
  Forall (λ c, call_overwrite c = false) (jpg_calls run1) ∧
  Forall (λ c, call_overwrite c = false) (jpg_calls run2).
Proof.
  intros run1 run2. subst run1 run2. split; [|split].
  - rewrite !generate_local_view.
    destruct (load_csv_from_sam W csv_in) as [e|rows]; [done|].
    by apply for_each_local.
  - pose proof (generate_local_view W watermark upload csv_in csv_out ow1
                  (start W fs rem)) as Hview.
    destruct (load_csv_from_sam W csv_in) as [e|rows].
    + unfold local_view in Hview. simplify_eq.
      match goal with H : jpg_calls _ = _ |- _ => rewrite H end. constructor.
    + pose proof (for_each_calls W watermark upload ow1 rows
                    (add_msg MsgCsvLoaded (start W fs rem)) (Forall_nil_2 _)) as Hcalls.
      unfold local_view in Hview. injection Hview as _ Hc _ _. by rewrite Hc.
  - pose proof (generate_local_view W watermark upload csv_in csv_out ow2
                  (start W fs rem)) as Hview.
    destruct (load_csv_from_sam W csv_in) as [e|rows].
    + unfold local_view in Hview. simplify_eq.
      match goal with H : jpg_calls _ = _ |- _ => rewrite H end. constructor.
    + pose proof (for_each_calls W watermark upload ow2 rows
                    (add_msg MsgCsvLoaded (start W fs rem)) (Forall_nil_2 _)) as Hcalls.
      unfold local_view in Hview. injection Hview as _ Hc _ _. by rewrite Hc.
Qed.

(** ** Which errors of a row are caught *)

Section RowErrors.
Context (W : World) (watermark upload overwrite : bool).







End RowErrors.



(** * Further properties of the generator *)

Section GeneratorMore.
Context (W : World).

(** The three ways one size can end when it returns a response. *)
Lemma jpg_size_cases img_in img quality watermark overwrite resp size
    (fs fs' : gmap string content) resp' :
  jpg_size W img_in img quality watermark overwrite resp size fs = (fs', inr resp') →
  (negb overwrite && path_exists W fs (out_file W img_in size) = true ∧
   fs' = fs ∧ resp_paths resp' = resp_paths resp ∧ truthy (resp_error resp') = true) ∨
  (negb overwrite && path_exists W fs (out_file W img_in size) = false ∧
   fs' = <[out_file W img_in size := Jpeg (sized_copy W img watermark size) quality]> fs ∧
   resp_paths resp' = <[size := out_file W img_in size]> (resp_paths resp) ∧
   resp_error resp' = resp_error resp) ∨
  (negb overwrite && path_exists W fs (out_file W img_in size) = false ∧
   fs' = fs ∧ resp_paths resp' = resp_paths resp ∧ truthy (resp_error resp') = true).
Proof.
  unfold jpg_size. unfold_monad. intros H.
  destruct (negb overwrite && path_exists W fs (out_file W img_in size)) eqn:Hguard.
  - left. by simplify_eq.
  - destruct (pil_save W fs _ _ quality) as [e|].
    + destruct (img_filename W _) as [name|]; [|done].
      right; right. by simplify_eq.
    + right; left. by simplify_eq.
Qed.

(** A size that raises writes nothing. *)
Lemma jpg_size_raise img_in img quality watermark overwrite resp size
    (fs fs' : gmap string content) e :
  jpg_size W img_in img quality watermark overwrite resp size fs = (fs', inl e) →
  fs' = fs.
Proof.
  unfold jpg_size. unfold_monad. intros H.
  repeat case_match; by simplify_eq.
Qed.

Lemma path_exists_insert (fs : gmap string content) p q c :
  path_exists W fs p = true → path_exists W (<[q := c]> fs) p = true.
Proof.
  unfold path_exists. intros H. apply orb_true_iff in H as [H|H].
  - by rewrite H.
  - apply orb_true_iff. right. apply bool_decide_eq_true in H.
    apply bool_decide_eq_true. destruct (decide (q = p)) as [->|Hne].
    + rewrite lookup_insert_eq. by eexists.
    + by rewrite lookup_insert_ne.
Qed.

Lemma path_exists_written (fs : gmap string content) p c :
  path_exists W (<[p := c]> fs) p = true.
Proof.
  unfold path_exists. apply orb_true_iff. right. apply bool_decide_eq_true.
  rewrite lookup_insert_eq. by eexists.
Qed.

(** The loop over the sizes never removes a file. *)
Lemma jpg_sizes_exists_kept img_in img quality watermark overwrite sizes resp
    (fs fs' : gmap string content) res p :
  jpg_sizes W img_in img quality watermark overwrite sizes resp fs = (fs', res) →
  path_exists W fs p = true → path_exists W fs' p = true.
Proof.
  revert resp fs. induction sizes as [|size rest IH]; intros resp fs H Hp; simpl in H.
  - unfold_monad. by simplify_eq.
  - unfold_monad.
    destruct (jpg_size W img_in img quality watermark overwrite resp size fs)
      as [fs1 [e|resp1]] eqn:Hstep.
    + simplify_eq. by apply jpg_size_raise in Hstep as ->.
    + apply (IH _ _ H).
      apply jpg_size_files in Hstep as [->| ->]; [done|]. by apply path_exists_insert.
Qed.

(** With [overwrite=False] a path that exists keeps what it holds. *)
Lemma jpg_sizes_no_replace img_in img quality watermark sizes resp
    (fs fs' : gmap string content) res p :
  jpg_sizes W img_in img quality watermark false sizes resp fs = (fs', res) →
  path_exists W fs p = true → fs' !! p = fs !! p.
Proof.
  revert resp fs. induction sizes as [|size rest IH]; intros resp fs H Hp; simpl in H.
  - unfold_monad. by simplify_eq.
  - unfold_monad.
    destruct (jpg_size W img_in img quality watermark false resp size fs)
      as [fs1 [e|resp1]] eqn:Hstep.
    + simplify_eq. by apply jpg_size_raise in Hstep as ->.
    + apply jpg_size_cases in Hstep
        as [(_ & -> & _)|[(Hguard & -> & _)|(_ & -> & _)]].
      * by apply (IH _ _ H).
      * rewrite (IH _ _ H) by by apply path_exists_insert.
        apply lookup_insert_ne. intros <-. simpl in Hguard. congruence.
      * by apply (IH _ _ H).
Qed.

(** A response without an error holds the path of every requested size,
    that path exists afterwards, and entries of other sizes are as they
    were. *)
Lemma jpg_sizes_complete img_in img quality watermark overwrite sizes resp resp'
    (fs fs' : gmap string content) :
  jpg_sizes W img_in img quality watermark overwrite sizes resp fs = (fs', inr resp') →
  resp_error resp' = None →
  resp_error resp = None ∧
  (∀ size, size ∈ sizes →
     resp_paths resp' !! size = Some (out_file W img_in size) ∧
     path_exists W fs' (out_file W img_in size) = true) ∧
  (∀ k, k ∉ sizes → resp_paths resp' !! k = resp_paths resp !! k).
Proof.
  revert resp fs. induction sizes as [|size rest IH]; intros resp fs H Hnone; simpl in H.
  - unfold_monad. simplify_eq. split; [done|]. split; [|done].
    intros size Hin. by apply elem_of_nil in Hin.
  - unfold_monad.
    destruct (jpg_size W img_in img quality watermark overwrite resp size fs)
      as [fs1 [e|resp1]] eqn:Hstep; [done|].
    destruct (IH _ _ H Hnone) as (Hnone1 & Hin & Hout).
    apply jpg_size_cases in Hstep
      as [(_ & _ & _ & Ht)|[(_ & -> & Hpaths & Herr)|(_ & _ & _ & Ht)]];
      [by rewrite Hnone1 in Ht| |by rewrite Hnone1 in Ht].
    split; [congruence|]. split.
    + intros k Hk. apply elem_of_cons in Hk as [->|Hk]; [|by apply Hin].
      destruct (decide (size ∈ rest)) as [Hrest|Hrest]; [by apply Hin|].
      split.
      * rewrite (Hout _ Hrest), Hpaths. apply lookup_insert_eq.
      * eapply jpg_sizes_exists_kept; [exact H|]. apply path_exists_written.
    + intros k Hk. apply not_elem_of_cons in Hk as [Hne Hk].
      rewrite (Hout _ Hk), Hpaths. by apply lookup_insert_ne.
Qed.

(** Every entry of the response is for a requested size, at that size's
    output path. *)
Lemma jpg_sizes_keys img_in img quality watermark overwrite sizes resp resp'
    (fs fs' : gmap string content) k p :
  jpg_sizes W img_in img quality watermark overwrite sizes resp fs = (fs', inr resp') →
  resp_paths resp' !! k = Some p →
  resp_paths resp !! k = Some p ∨
  (k ∈ sizes ∧ p = out_file W img_in k ∧ path_exists W fs' p = true).
Proof.
  revert resp fs. induction sizes as [|size rest IH]; intros resp fs H Hk; simpl in H.
  - unfold_monad. simplify_eq. by left.
  - unfold_monad.
    destruct (jpg_size W img_in img quality watermark overwrite resp size fs)
      as [fs1 [e|resp1]] eqn:Hstep; [done|].
    destruct (IH _ _ H Hk) as [Hold|(Hin & -> & Hex)].
    + apply jpg_size_cases in Hstep
        as [(_ & _ & Hpaths & _)|[(_ & -> & Hpaths & _)|(_ & _ & Hpaths & _)]];
        rewrite Hpaths in Hold; [by left| |by left].
      destruct (decide (size = k)) as [->|Hne].
      * rewrite lookup_insert_eq in Hold. simplify_eq. right.
        split; [apply list_elem_of_here|]. split; [done|].
        eapply jpg_sizes_exists_kept; [exact H|]. apply path_exists_written.
      * rewrite lookup_insert_ne in Hold by done. by left.
    + right. split; [by apply list_elem_of_further|]. by split.
Qed.

(** When every destination exists and [overwrite] is [False], the loop
    writes nothing, adds no path and ends with an error. *)
Lemma jpg_sizes_all_exist img_in img quality watermark sizes resp
    (fs : gmap string content) :
  (∀ size, size ∈ sizes → path_exists W fs (out_file W img_in size) = true) →
  ∃ resp', jpg_sizes W img_in img quality watermark false sizes resp fs = (fs, inr resp') ∧
           resp_paths resp' = resp_paths resp ∧
           (sizes ≠ [] → truthy (resp_error resp') = true).
Proof.
  revert resp. induction sizes as [|size rest IH]; intros resp Hall.
  - exists resp. by repeat split.
  - simpl. unfold_monad.
    rewrite (jpg_size_exists W img_in img quality watermark resp size fs)
      by (apply Hall, list_elem_of_here).
    destruct (IH (mkResp (resp_paths resp)
                    (Some ("File already exists: " +:+ out_file W img_in size))))
      as (resp' & Hrun & Hpaths & Herr).
    { intros s Hs. by apply Hall, list_elem_of_further. }
    exists resp'. split; [exact Hrun|]. split; [exact Hpaths|]. intros _.
    apply jpg_sizes_error in Hrun as [Heq|Ht]; [|exact Ht].
    by rewrite Heq.
Qed.

End GeneratorMore.

Lemma generate_jpgs_keys (W : World) img_in quality sizes
    (watermark overwrite : bool) (fs fs' : gmap string content) resp k p :
  _generate_jpgs W img_in quality sizes watermark overwrite fs = (fs', inr resp) →
  resp_paths resp !! k = Some p →
  k ∈ sizes ∧ p = out_file W img_in k ∧ path_exists W fs' p = true.
Proof.
  unfold _generate_jpgs. unfold_monad. intros H Hk.
  destruct (pil_open W fs img_in); [|by simplify_eq..].
  destruct (pil_load W fs img_in); simpl in H; [done|].
  by destruct (jpg_sizes_keys W _ _ _ _ _ _ _ _ _ _ _ _ H Hk) as [Hempty|Hin].
Qed.

Lemma generate_jpgs_complete (W : World) img_in quality sizes
    (watermark overwrite : bool) (fs fs' : gmap string content) resp size :
  _generate_jpgs W img_in quality sizes watermark overwrite fs = (fs', inr resp) →
  resp_error resp = None →
  size ∈ sizes →
  resp_paths resp !! size = Some (out_file W img_in size) ∧
  path_exists W fs' (out_file W img_in size) = true.
Proof.
  unfold _generate_jpgs. unfold_monad. intros H Hnone Hin.
  destruct (pil_open W fs img_in); [|by simplify_eq..].
  destruct (pil_load W fs img_in); simpl in H; [done|].
  destruct (jpg_sizes_complete W _ _ _ _ _ _ _ _ _ _ H Hnone) as (_ & Hall & _).
  by apply Hall.
Qed.

(** X1. Every entry of the generator's response is keyed by a requested
    size, holds that size's output path, and the path exists when the
    generator returns, whether or not other sizes failed. *)
Theorem response_entries_are_written_files (W : World) img_in quality sizes
    (watermark overwrite : bool) (fs fs' : gmap string content) resp k p :
  _generate_jpgs W img_in quality sizes watermark overwrite fs = (fs', inr resp) →
  resp_paths resp !! k = Some p →
  k ∈ sizes ∧ p = out_file W img_in k ∧ path_exists W fs' p = true.
Proof. apply generate_jpgs_keys. Qed.

Lemma response_entries_are_written_files_witness :
  let W := Demo.world [] in
  150 ∈ [1920; 640; 150] ∧
  "access/small/a.jpg" = out_file W "master/a.jpg" 150 ∧
  path_exists W (fst (_generate_jpgs W "master/a.jpg" 80 [1920; 640; 150] false false ∅))
    "access/small/a.jpg" = true.
Proof.
  intros W.
  apply (response_entries_are_written_files W "master/a.jpg" 80 [1920; 640; 150]
           false false ∅
           (fst (_generate_jpgs W "master/a.jpg" 80 [1920; 640; 150] false false ∅))
           (mkResp (<[150 := "access/small/a.jpg"]>
                      (<[640 := "access/medium/a.jpg"]>
                         (<[1920 := "access/large/a.jpg"]> ∅))) None));
    vm_compute; reflexivity.
Defined.

(** X2. A response without an error is complete: it holds the output
    path of every requested size, and each of those paths exists.  So the
    caller's [convert_resp.get(size)] is never [None] for a size it asked
    for once the error test has passed. *)
Theorem response_without_error_is_complete (W : World) img_in quality sizes
    (watermark overwrite : bool) (fs fs' : gmap string content) resp size :
  _generate_jpgs W img_in quality sizes watermark overwrite fs = (fs', inr resp) →
  resp_error resp = None →
  size ∈ sizes →
  resp_paths resp !! size = Some (out_file W img_in size) ∧
  path_exists W fs' (out_file W img_in size) = true.
Proof. apply generate_jpgs_complete. Qed.

Lemma response_without_error_is_complete_witness :
  let W := Demo.world [] in
  let res := _generate_jpgs W "./images/temp/doc.png" 80 [640; 150] true false ∅ in
  match snd res with
  | inr resp => resp_paths resp !! 640 = Some "access/medium/doc.jpg"
  | inl _ => False
  end ∧
  path_exists W (fst res) "access/medium/doc.jpg" = true.
Proof.
  intros W res.
  destruct (response_without_error_is_complete W "./images/temp/doc.png" 80 [640; 150]
              true false ∅ (fst res)
              (mkResp (<[150 := "access/small/doc.jpg"]>
                         (<[640 := "access/medium/doc.jpg"]> ∅)) None) 640)
    as [Hpath Hex].
  - vm_compute; reflexivity.
  - reflexivity.
  - compute_done.
  - split; [|exact Hex]. vm_compute. vm_compute in Hpath. exact Hpath.
Defined.

(** X3. Called with [overwrite=False] (as the pipeline always calls it),
    the generator never replaces a file: whatever existed before the call,
    on disk or written earlier in the run, holds afterwards what it held
    before, also when the call raises. *)
Theorem no_overwrite_keeps_existing_files (W : World) img_in quality sizes
    (watermark : bool) (fs fs' : gmap string content) res p :
  _generate_jpgs W img_in quality sizes watermark false fs = (fs', res) →
  path_exists W fs p = true →
  fs' !! p = fs !! p.
Proof.
  unfold _generate_jpgs. unfold_monad. intros H Hp.
  destruct (pil_open W fs img_in); [|by simplify_eq..].
  destruct (pil_load W fs img_in); simpl in H; [by simplify_eq|].
  by eapply jpg_sizes_no_replace.
Qed.

Lemma no_overwrite_keeps_existing_files_witness :
  let W := Demo.world [] in
  let fs : gmap string content := {[ "access/medium/a.jpg" := Png "kept" ]} in
  fst (_generate_jpgs W "master/a.jpg" 80 [1920; 640; 150] false false fs)
    !! "access/medium/a.jpg" = fs !! "access/medium/a.jpg".
Proof.
  intros W fs.
  apply (no_overwrite_keeps_existing_files W "master/a.jpg" 80 [1920; 640; 150] false fs
           (fst (_generate_jpgs W "master/a.jpg" 80 [1920; 640; 150] false false fs))
           (snd (_generate_jpgs W "master/a.jpg" 80 [1920; 640; 150] false false fs)));
    vm_compute; reflexivity.
Defined.

(** X4. Running the generator again is not a conversion: after a call
    that returned without an error, a second call for the same source and
    sizes with [overwrite=False] writes nothing, and if it returns a
    response for a non-empty list of sizes, that response has an error and
    no path. *)
Theorem second_run_writes_nothing (W : World) img_in quality quality' sizes
    (watermark watermark' overwrite : bool) (fs fs1 fs2 : gmap string content)
    resp res2 :
  _generate_jpgs W img_in quality sizes watermark overwrite fs = (fs1, inr resp) →
  resp_error resp = None →
  _generate_jpgs W img_in quality' sizes watermark' false fs1 = (fs2, res2) →
  fs2 = fs1 ∧
  (∀ resp2, res2 = inr resp2 → sizes ≠ [] →
     truthy (resp_error resp2) = true ∧ resp_paths resp2 = ∅).
Proof.
  intros Hfirst Hnone Hsecond.
  assert (Hall : ∀ size, size ∈ sizes →
                   path_exists W fs1 (out_file W img_in size) = true).
  { intros size Hin.
    by destruct (generate_jpgs_complete W _ _ _ _ _ _ _ _ size
                   Hfirst Hnone Hin). }
  clear Hfirst. revert Hsecond. unfold _generate_jpgs. unfold_monad. intros H.
  destruct (pil_open W fs1 img_in).
  - destruct (pil_load W fs1 img_in); simpl in H; [by simplify_eq|].
    destruct (jpg_sizes_all_exist W img_in
                (fix_orientation W fs1 img_in (Opened img_in)) quality' watermark'
                sizes (mkResp ∅ None) fs1 Hall) as (resp' & Hrun & Hpaths & Herr).
    rewrite Hrun in H. simplify_eq. split; [done|].
    intros resp2 [= <-] Hne. split; [by apply Herr|done].
  - simplify_eq. split; [done|]. by intros resp2 [= <-] _.
  - simplify_eq. split; [done|]. by intros resp2 [= <-] _.
Qed.

Lemma second_run_writes_nothing_witness :
  let W := Demo.world [] in
  let fs1 := fst (_generate_jpgs W "master/a.jpg" 80 [640; 150] false false ∅) in
  fst (_generate_jpgs W "master/a.jpg" 80 [640; 150] false false fs1) = fs1.
Proof.
  intros W fs1.
  refine (proj1 (second_run_writes_nothing W "master/a.jpg" 80 80 [640; 150]
            false false false ∅ fs1
            (fst (_generate_jpgs W "master/a.jpg" 80 [640; 150] false false fs1))
            (mkResp (<[150 := "access/small/a.jpg"]>
                       (<[640 := "access/medium/a.jpg"]> ∅)) None)
            (snd (_generate_jpgs W "master/a.jpg" 80 [640; 150] false false fs1))
            _ _ _)); vm_compute; reflexivity.
Defined.

Section GeneratorErrors.
Context (W : World).

(** With [overwrite=False], a destination that exists when the loop
    starts makes the loop end with an error, wherever its size stands in
    the list. *)
Lemma jpg_sizes_existing_errors img_in img quality watermark sizes resp resp'
    (fs fs' : gmap string content) size :
  jpg_sizes W img_in img quality watermark false sizes resp fs = (fs', inr resp') →
  size ∈ sizes →
  path_exists W fs (out_file W img_in size) = true →
  truthy (resp_error resp') = true.
Proof.
  revert resp fs. induction sizes as [|s rest IH]; intros resp fs H Hin Hex.
  - by apply elem_of_nil in Hin.
  - simpl in H. unfold_monad.
    destruct (jpg_size W img_in img quality watermark false resp s fs)
      as [fs1 [e|resp1]] eqn:Hstep; [done|].
    apply elem_of_cons in Hin as [->|Hin].
    + rewrite (jpg_size_exists W img_in img quality watermark resp s fs Hex) in Hstep.
      simplify_eq. apply jpg_sizes_error in H as [Heq|Ht]; [|exact Ht].
      by rewrite Heq.
    + apply (IH _ _ H Hin).
      apply jpg_size_files in Hstep as [->| ->]; [done|]. by apply path_exists_insert.
Qed.



End GeneratorErrors.

(** X5. With [overwrite=False], if the destination of any requested size
    exists when the generator is called, the response it returns has an
    error, whatever the position of that size in the list and however many
    other sizes were written. *)
Theorem any_existing_destination_is_an_error (W : World) img_in quality sizes
    (watermark : bool) (fs fs' : gmap string content) resp size :
  _generate_jpgs W img_in quality sizes watermark false fs = (fs', inr resp) →
  size ∈ sizes →
  path_exists W fs (out_file W img_in size) = true →
  truthy (resp_error resp) = true.
Proof.
  unfold _generate_jpgs. unfold_monad. intros H Hin Hex.
  destruct (pil_open W fs img_in); [|by simplify_eq..].
  destruct (pil_load W fs img_in); simpl in H; [done|].
  by eapply jpg_sizes_existing_errors.
Qed.

Lemma any_existing_destination_is_an_error_witness :
  let W := Demo.world [] in
  let fs : gmap string content := {[ "access/small/a.jpg" := Png "earlier run" ]} in
  truthy (Some "File already exists: access/small/a.jpg") = true.
Proof.
  intros W fs.
  apply (any_existing_destination_is_an_error W "master/a.jpg" 80 [1920; 640; 150]
           false fs
           (fst (_generate_jpgs W "master/a.jpg" 80 [1920; 640; 150] false false fs))
           (mkResp (<[640 := "access/medium/a.jpg"]>
                      (<[1920 := "access/large/a.jpg"]> ∅))
              (Some "File already exists: access/small/a.jpg")) 150).
  - vm_compute; reflexivity.
  - compute_done.
  - vm_compute; reflexivity.
Defined.

Lemma jpg_sizes_collide (W : World) img_in img quality watermark sizes resp resp'
    (fs fs' : gmap string content) (i j : nat) s1 s2 :
  jpg_sizes W img_in img quality watermark false sizes resp fs = (fs', inr resp') →
  (i < j)%nat →
  sizes !! i = Some s1 →
  sizes !! j = Some s2 →
  out_dir W s1 = out_dir W s2 →
  truthy (resp_error resp') = true.
Proof.
  revert resp fs i j. induction sizes as [|s rest IH]; intros resp fs i j H Hlt Hi Hj Hdir.
  - done.
  - simpl in H. unfold_monad.
    destruct (jpg_size W img_in img quality watermark false resp s fs)
      as [fs1 [e|resp1]] eqn:Hstep; [done|].
    destruct j as [|j']; [lia|]. simpl in Hj.
    destruct i as [|i'].
    + simpl in Hi. simplify_eq.
      assert (Hin : s2 ∈ rest) by (by eapply list_elem_of_lookup_2).
      assert (Hout : out_file W img_in s1 = out_file W img_in s2)
        by (unfold out_file; by rewrite Hdir).
      apply jpg_size_cases in Hstep
        as [(_ & _ & _ & Ht)|[(_ & -> & _ & _)|(_ & _ & _ & Ht)]].
      * apply jpg_sizes_error in H as [Heq|Ht']; [by rewrite Heq|exact Ht'].
      * eapply jpg_sizes_existing_errors; [exact H|exact Hin|].
        rewrite <- Hout. apply path_exists_written.
      * apply jpg_sizes_error in H as [Heq|Ht']; [by rewrite Heq|exact Ht'].
    + simpl in Hi. apply (IH _ _ i' j' H); [lia|done..].
Qed.

(** X6. Any two requested sizes, wherever they stand in the list, that map
    to the same output directory (two sizes outside the table both fall
    back to [SAM_ACCESS_PATH]; two table sizes configured with one
    directory) share one output file, so with [overwrite=False] the
    generator cannot deliver both: a response it returns has an error. *)
Theorem sizes_sharing_a_directory_collide (W : World) img_in quality sizes
    (watermark : bool) (fs fs' : gmap string content) resp (i j : nat) s1 s2 :
  _generate_jpgs W img_in quality sizes watermark false fs = (fs', inr resp) →
  i ≠ j →
  sizes !! i = Some s1 →
  sizes !! j = Some s2 →
  out_dir W s1 = out_dir W s2 →
  truthy (resp_error resp) = true.
Proof.
  unfold _generate_jpgs. unfold_monad. intros H Hne Hi Hj Hdir.
  destruct (pil_open W fs img_in); [|by simplify_eq..].
  destruct (pil_load W fs img_in); simpl in H; [done|].
  destruct (decide (i < j)%nat) as [Hlt|Hge].
  - by eapply (jpg_sizes_collide W _ _ _ _ _ _ _ _ _ i j s1 s2).
  - eapply (jpg_sizes_collide W _ _ _ _ _ _ _ _ _ j i s2 s1); [exact H|lia|done..].
Qed.

Lemma sizes_sharing_a_directory_collide_witness :
  let W := Demo.world [] in
  truthy (Some "File already exists: access/a.jpg") = true.
Proof.
  intros W.
  apply (sizes_sharing_a_directory_collide W "master/a.jpg" 80 [1920; 300; 200] false ∅
           (fst (_generate_jpgs W "master/a.jpg" 80 [1920; 300; 200] false false ∅))
           (mkResp (<[300 := "access/a.jpg"]> (<[1920 := "access/large/a.jpg"]> ∅))
              (Some "File already exists: access/a.jpg")) 2%nat 1%nat 200 300).
  - vm_compute; reflexivity.
  - lia.
  - reflexivity.
  - reflexivity.
  - vm_compute; reflexivity.
Defined.



(** X8. Cover extraction ends in one of three ways.  It returns
    [out_folder/stem.png] after writing exactly that file; or writing the
    PNG failed and it raises [PDFConvertError] carrying the cause; or
    opening the document, loading page 0 or rendering it failed and that
    exception leaves the function as it is, not wrapped.  Unless it
    returns, it writes nothing. *)
Theorem cover_extraction_outcomes (W : World) pdf_in out_folder
    (fs fs' : gmap string content) res :
  _convert_pdf_cover_to_image W pdf_in out_folder fs = (fs', res) →
  let out := path_join W out_folder (path_stem W pdf_in) +:+ ".png" in
  (res = inr out ∧ fs' = <[out := Png pdf_in]> fs) ∨
  (∃ e, res = inl (PDFConvertError e) ∧ fs' = fs ∧
        fitz_open W fs pdf_in = None ∧ fitz_loadPage W fs pdf_in 0 = None ∧
        fitz_getPixmap W fs pdf_in 0 = None ∧ fitz_writePNG W fs pdf_in out = Some e) ∨
  (∃ e, res = inl e ∧ fs' = fs ∧
        (fitz_open W fs pdf_in = Some e ∨
         fitz_open W fs pdf_in = None ∧ fitz_loadPage W fs pdf_in 0 = Some e ∨
         fitz_open W fs pdf_in = None ∧ fitz_loadPage W fs pdf_in 0 = None ∧
         fitz_getPixmap W fs pdf_in 0 = Some e)).
Proof.
  intros H out. unfold _convert_pdf_cover_to_image in H. unfold_monad.
  destruct (fitz_open W fs pdf_in) as [e|] eqn:Ho; simpl in H.
  { simplify_eq. right; right. exists e. naive_solver. }
  destruct (fitz_loadPage W fs pdf_in 0) as [e|] eqn:Hl; simpl in H.
  { simplify_eq. right; right. exists e. naive_solver. }
  destruct (fitz_getPixmap W fs pdf_in 0) as [e|] eqn:Hp; simpl in H.
  { simplify_eq. right; right. exists e. naive_solver. }
  fold out in H.
  destruct (fitz_writePNG W fs pdf_in out) as [e|] eqn:Hw; simpl in H.
  - simplify_eq. right; left. exists e. naive_solver.
  - simplify_eq. by left.
Qed.

Lemma cover_extraction_outcomes_witness :
  let W := Demo.world [] in
  let r := _convert_pdf_cover_to_image W "master/doc.pdf" "./images/temp" ∅ in
  (snd r = inr "./images/temp/doc.png" ∧
   fst r = <["./images/temp/doc.png" := Png "master/doc.pdf"]> ∅) ∨
  (∃ e, snd r = inl (PDFConvertError e) ∧ fst r = ∅ ∧
        fitz_open W ∅ "master/doc.pdf" = None ∧
        fitz_loadPage W ∅ "master/doc.pdf" 0 = None ∧
        fitz_getPixmap W ∅ "master/doc.pdf" 0 = None ∧
        fitz_writePNG W ∅ "master/doc.pdf" "./images/temp/doc.png" = Some e) ∨
  (∃ e, snd r = inl e ∧ fst r = ∅ ∧
        (fitz_open W ∅ "master/doc.pdf" = Some e ∨
         fitz_open W ∅ "master/doc.pdf" = None ∧
         fitz_loadPage W ∅ "master/doc.pdf" 0 = Some e ∨
         fitz_open W ∅ "master/doc.pdf" = None ∧
         fitz_loadPage W ∅ "master/doc.pdf" 0 = None ∧
         fitz_getPixmap W ∅ "master/doc.pdf" 0 = Some e)).
Proof.
  intros W r.
  apply (cover_extraction_outcomes W "master/doc.pdf" "./images/temp" ∅ (fst r) (snd r)).
  vm_compute; reflexivity.
Defined.

(** * Further properties of the pipeline *)

Ltac solve_tally :=
  unfold tally_change; simpl;
  rewrite ?Nat.add_0_r, ?Nat.add_1_r, ?app_nil_r; repeat split; done.

Section RowOutcome.
Context (W : World) (watermark upload overwrite : bool).

Lemma truthy_false_none img_in quality sizes wm ow (fs fs' : gmap string content) resp :
  _generate_jpgs W img_in quality sizes wm ow fs = (fs', inr resp) →
  truthy (resp_error resp) = false → resp_error resp = None.
Proof.
  intros Hgen Ht. destruct (resp_error resp) as [err|] eqn:Herr; [|done].
  assert (truthy (resp_error resp) = true) as Htrue.
  { eapply generator_error_truthy; [exact Hgen|]. rewrite Herr. by eexists. }
  rewrite Herr in Htrue. congruence.
Qed.

Lemma convert_and_emit_outcome filename filepath filesizes record_type (r r' : Run W) res :
  SAM_ACCESS_SMALL_SIZE W ∈ filesizes →
  SAM_ACCESS_MEDIUM_SIZE W ∈ filesizes →
  record_type = "image" ∨ record_type = "web_document" →
  convert_and_emit W watermark upload overwrite filename filepath filesizes record_type r
    = (r', res) →
  row_outcome upload r r' res.
Proof.
  intros Hs Hm Hrt.
  unfold convert_and_emit, print, incr_failed, incr_converted, append_output.
  unfold_monad. rewrite call_generate_jpgs_eq.
  destruct (_generate_jpgs W filepath 80 filesizes watermark false (files r))
    as [fs' [e|resp]] eqn:Hgen; simpl.
  { intros [= <- <-]. split; [done|]. split; [done|]. left. exists e.
    split; [done|]. split; [solve_tally|done]. }
  destruct (truthy (resp_error resp)) eqn:Ht; simpl.
  { intros [= <- <-]. split; [done|]. split; [done|]. do 2 right; left.
    split; [done|]. split; [solve_tally|done]. }
  pose proof (truthy_false_none _ _ _ _ _ _ _ _ Hgen Ht) as Hnone.
  destruct (generate_jpgs_complete W _ _ _ _ _ _ _ _ _ Hgen Hnone Hs)
    as [Hsmall _].
  destruct (generate_jpgs_complete W _ _ _ _ _ _ _ _ _ Hgen Hnone Hm)
    as [Hmedium _].
  rewrite Hsmall, Hmedium.
  destruct upload.
  - match goal with
    | |- context [upload_step W filename overwrite _ _ ?l ?x] =>
        destruct (upload_step_some_cases W overwrite filename
                    (out_file W filepath (SAM_ACCESS_SMALL_SIZE W))
                    (out_file W filepath (SAM_ACCESS_MEDIUM_SIZE W)) l x)
          as [(rem & e & ->)|(rem & u0 & u1 & u2 & ->)]
    end; intros [= <- <-]; (split; [done|]); (split; [done|]).
    + do 5 right. split; [done|]. split; [done|]. solve_tally.
    + do 4 right; left. split; [done|]. split; [done|]. eexists.
      split; [|solve_tally]. by split.
  - intros [= <- <-]. split; [done|]. split; [done|]. do 3 right; left.
    split; [done|]. split; [done|]. eexists. split; [|solve_tally]. by split.
Qed.

Lemma process_master_outcome filename (r r' : Run W) res :
  process_master W watermark upload overwrite filename r = (r', res) →
  row_outcome upload r r' res.
Proof.
  unfold process_master, on_files, print, incr_failed, incr_skipped. unfold_monad.
  destruct filename as [| | |name|];
    try (intros [= <- <-]; split; [done|]; split; [done|]; left; eexists;
         split; [done|]; split; [solve_tally|done]).
  destruct (path_exists W (files r) _); simpl.
  2:{ intros [= <- <-]. split; [done|]. split; [done|]. do 2 right; left.
      split; [done|]. split; [solve_tally|done]. }
  destruct (path_is_file W (files r) _); simpl.
  2:{ intros [= <- <-]. split; [done|]. split; [done|]. do 2 right; left.
      split; [done|]. split; [solve_tally|done]. }
  destruct (bool_decide _).
  { apply convert_and_emit_outcome; [set_solver..|by left]. }
  destruct (String.eqb _ ".pdf").
  - destruct (_convert_pdf_cover_to_image W _ _ (files r)) as [fs' [e|cover]].
    + intros [= <- <-]. split; [done|]. split; [done|]. left. exists e.
      split; [done|]. split; [solve_tally|done].
    + intros H.
      apply convert_and_emit_outcome in H; [|set_solver..|by right].
      exact H.
  - intros [= <- <-]. split; [done|]. split; [done|]. right; left.
    split; [done|]. split; [solve_tally|done].
Qed.

Lemma process_row_outcome file (r r' : Run W) res :
  process_row W watermark upload overwrite file r = (r', res) →
  row_outcome upload r r' res.
Proof.
  unfold process_row, print, incr_skipped. unfold_monad.
  destruct (file !! "oasDataJsonEncoded") as [encoded|];
    [|intros [= <- <-]; split; [done|]; split; [done|]; left; eexists;
      split; [done|]; split; [solve_tally|done]].
  destruct (json_loads W encoded) as [e|[d|v]];
    [intros [= <- <-]; split; [done|]; split; [done|]; left; eexists;
     split; [done|]; split; [solve_tally|done]| |
     intros [= <- <-]; split; [done|]; split; [done|]; left; eexists;
     split; [done|]; split; [solve_tally|done]].
  destruct (d !! "filename") as [fn|];
    [|intros [= <- <-]; split; [done|]; split; [done|]; left; eexists;
      split; [done|]; split; [solve_tally|done]].
  destruct (status_code (default (JStr "4") (d !! "other_restrictions")))
    as [e|legal];
    [intros [= <- <-]; split; [done|]; split; [done|]; left; eexists;
     split; [done|]; split; [solve_tally|done]|].
  destruct (legal >? 1)%Z.
  { intros [= <- <-]. split; [done|]. split; [done|]. right; left.
    split; [done|]. split; [solve_tally|done]. }
  destruct (status_code (default (JStr "1") (d !! "contractual_status")))
    as [e|contractual];
    [intros [= <- <-]; split; [done|]; split; [done|]; left; eexists;
     split; [done|]; split; [solve_tally|done]|].
  destruct (contractual <? 3)%Z.
  { intros [= <- <-]. split; [done|]. split; [done|]. right; left.
    split; [done|]. split; [solve_tally|done]. }
  apply process_master_outcome.
Qed.

End RowOutcome.

Section Books.
Context (W : World) (watermark upload overwrite : bool).

(** What a row adds to the output: nothing or one row of the expected
    shape, counted by the delivery counter. *)
Lemma row_outcome_output (r r' : Run W) res :
  row_outcome upload r r' res →
  ∃ new, output r' = (output r ++ new)%list ∧ (List.length new ≤ 1)%nat ∧
         Forall output_shape new ∧
         rows_delivered upload r' = (rows_delivered upload r + List.length new)%nat.
Proof.
  intros (_ & _ & Hcases). unfold rows_delivered, tally_change in *.
  destruct Hcases as [(e & _ & H & _)|[(_ & H & _)|[(_ & H & _)|
                     [(_ & -> & o & Hshape & H)|[(_ & -> & o & Hshape & H)|
                      (_ & -> & H)]]]]];
    destruct H as (Hc & Hs & Hf & Hu & Ho).
  1-3,6: exists []; (split; [exact Ho|]); (split; [simpl; lia|]);
         (split; [apply Forall_nil_2|]); simpl; repeat case_match; lia.
  all: exists [o]; (split; [exact Ho|]); (split; [simpl; lia|]);
       (split; [by apply Forall_singleton|]); simpl; lia.
Qed.

Lemma row_outcome_accounted (r r' : Run W) :
  row_outcome upload r r' (inr tt) →
  rows_accounted upload r' = S (rows_accounted upload r).
Proof.
  intros (_ & _ & Hcases). unfold rows_accounted, tally_change in *.
  destruct Hcases as [(e & ? & _)|[(_ & H & _)|[(_ & H & _)|
                     [(_ & -> & o & _ & H)|[(_ & -> & o & _ & H)|
                      (_ & -> & H)]]]]]; [done|..];
    destruct H as (Hc & Hs & Hf & Hu & Ho); repeat case_match; lia.
Qed.

Lemma for_each_output rows (r r' : Run W) res :
  for_each rows (process_row W watermark upload overwrite) r = (r', res) →
  saved_csv r' = saved_csv r ∧
  (upload = false → remote r' = remote r) ∧
  ∃ new, output r' = (output r ++ new)%list ∧
         (List.length new ≤ List.length rows)%nat ∧
         Forall output_shape new ∧
         rows_delivered upload r' = (rows_delivered upload r + List.length new)%nat.
Proof.
  revert r. induction rows as [|file rows IH]; intros r H; simpl in H.
  - unfold_monad. simplify_eq. split; [done|]. split; [done|].
    exists []. rewrite app_nil_r. simpl.
    split; [done|]. split; [lia|]. split; [apply Forall_nil_2|lia].
  - unfold_monad.
    destruct (process_row W watermark upload overwrite file r) as [r1 res1] eqn:Hrow.
    pose proof (process_row_outcome W _ _ _ _ _ _ _ Hrow) as Hout.
    destruct (row_outcome_output r r1 res1 Hout) as (new1 & Ho1 & Hlen1 & Hshape1 & Hd1).
    destruct Hout as (Hsaved1 & Hrem1 & _).
    destruct res1 as [e|[]].
    + simplify_eq. split; [done|]. split; [done|]. exists new1.
      split; [done|]. split; [simpl; lia|]. by split.
    + destruct (IH _ H) as (Hsaved & Hrem & new & Ho & Hlen & Hshape & Hd).
      split; [congruence|]. split; [intros Hup; rewrite Hrem, Hrem1; done|].
      exists (new1 ++ new)%list. rewrite Ho, Ho1, Hd, Hd1, app_assoc, length_app.
      split; [done|]. split; [simpl; lia|]. split; [by apply Forall_app|lia].
Qed.

Lemma for_each_accounted rows (r r' : Run W) :
  for_each rows (process_row W watermark upload overwrite) r = (r', inr tt) →
  rows_accounted upload r' = (rows_accounted upload r + List.length rows)%nat.
Proof.
  revert r. induction rows as [|file rows IH]; intros r H; simpl in H.
  - unfold_monad. simplify_eq. simpl. lia.
  - unfold_monad.
    destruct (process_row W watermark upload overwrite file r) as [r1 [e|[]]] eqn:Hrow;
      [done|].
    apply process_row_outcome, row_outcome_accounted in Hrow.
    rewrite (IH _ H), Hrow. simpl. lia.
Qed.

(** The function, in terms of its loop. *)
Lemma generate_eq csv_in csv_out (r : Run W) :
  generate_sam_access_files W csv_in csv_out watermark upload overwrite r =
    match load_csv_from_sam W csv_in with
    | inl e => (r, inl e)
    | inr rows =>
        match for_each rows (process_row W watermark upload overwrite)
                (add_msg MsgCsvLoaded r) with
        | (r1, inl e) => (r1, inl e)
        | (r1, inr _) =>
            let summary r2 :=
              add_msg (MsgSummary (converted r2) (uploaded r2) (failed r2) (skipped r2))
                r2 in
            match output r1 with
            | [] => (summary (add_msg MsgDone r1), inr tt)
            | _ :: _ =>
                match save_csv_to_sam W (output r1) csv_out with
                | Some e => (r1, inl e)
                | None =>
                    (summary (add_msg MsgDone (set_saved_csv (output r1) r1)), inr tt)
                end
            end
        end
    end.
Proof.
  unfold generate_sam_access_files, write_csv, print. unfold_monad.
  destruct (load_csv_from_sam W csv_in) as [e|rows]; [done|].
  destruct (for_each rows _ _) as [r1 [e|[]]]; [done|].
  destruct (output r1) as [|o out]; [done|].
  by destruct (save_csv_to_sam W (o :: out) csv_out).
Qed.

End Books.

(** X9. A row that raises has been counted nowhere: the exception comes
    from decoding the row, its rights codes, the cover extraction or the
    generator, all of which run before any counter moves.  After a
    conversion has been counted nothing raises any more (the upload step
    never does), so the four counters, the output rows and the remote
    store are as they were. *)
Theorem raising_row_counts_nothing (W : World) (watermark upload overwrite : bool)
    file (r r' : Run W) e :
  process_row W watermark upload overwrite file r = (r', inl e) →
  tally_change r r' 0 0 0 0 [] ∧ remote r' = remote r ∧ saved_csv r' = saved_csv r.
Proof.
  intros H. apply process_row_outcome in H as (Hsaved & _ & Hcases).
  destruct Hcases as [(e' & _ & Ht & Hrem)|[(? & _)|[(? & _)|[(? & _)|[(? & _)|(? & _)]]]]];
    done.
Qed.

Lemma raising_row_counts_nothing_witness :
  let W := Demo.world [] in
  let r := bump_converted (start W ∅ ["remote/x.jpg"]) in
  let r' := fst (process_row W true true false (Demo.row "badpdf") r) in
  tally_change r r' 0 0 0 0 [] ∧ remote r' = remote r ∧ saved_csv r' = saved_csv r.
Proof.
  intros W r r'.
  apply (raising_row_counts_nothing W true true false (Demo.row "badpdf") r r'
           (PDFConvertError (OSError "cannot write image"))).
  vm_compute; reflexivity.
Defined.

(** X10. A run that finishes accounts for every row exactly once: the
    rows skipped, the rows failed and the rows delivered (uploaded when an
    upload was requested, converted otherwise) add up to the number of
    input rows. *)
Theorem finished_run_accounts_for_every_row (W : World) (csv_in csv_out : string)
    (watermark upload overwrite : bool) (fs : gmap string content) (rem : Remote W)
    rows (r' : Run W) :
  load_csv_from_sam W csv_in = inr rows →
  generate_sam_access_files W csv_in csv_out watermark upload overwrite (start W fs rem)
    = (r', inr tt) →
  (skipped r' + failed r' + (if upload then uploaded r' else converted r'))%nat
    = List.length rows.
Proof.
  intros Hload. rewrite generate_eq, Hload.
  destruct (for_each rows _ _) as [r1 [e|[]]] eqn:Hloop; [done|].
  apply for_each_accounted in Hloop. unfold rows_accounted in Hloop. simpl in Hloop.
  destruct (output r1) as [|o out].
  - intros [= <-]. simpl. repeat case_match; lia.
  - destruct (save_csv_to_sam W (o :: out) csv_out); [done|].
    intros [= <-]. simpl. repeat case_match; lia.
Qed.

Lemma finished_run_accounts_for_every_row_witness :
  let rows := [Demo.row "photo"; Demo.row "restricted"; Demo.row "cover";
               Demo.row "bare"] in
  let W := Demo.world rows in
  let r' := fst (generate_sam_access_files W "in.csv" "out.csv" false true false
                   (start W ∅ [])) in
  (skipped r' + failed r' + uploaded r')%nat = 4%nat.
Proof.
  intros rows W r'.
  apply (finished_run_accounts_for_every_row W "in.csv" "out.csv" false true false
           ∅ [] rows r'); vm_compute; reflexivity.
Defined.

(** X11. Whether the run finishes or stops at a row, the output rows are
    exactly the rows counted as delivered (uploaded when an upload was
    requested, converted otherwise), never more than the input rows, and
    every one of them has [web_document_url] equal to the literal
    ["web_url"] and [record_type] equal to ["image"] or
    ["web_document"]. *)
Theorem output_rows_match_the_counter (W : World) (csv_in csv_out : string)
    (watermark upload overwrite : bool) (fs : gmap string content) (rem : Remote W)
    rows (r' : Run W) res :
  load_csv_from_sam W csv_in = inr rows →
  generate_sam_access_files W csv_in csv_out watermark upload overwrite (start W fs rem)
    = (r', res) →
  List.length (output r') = (if upload then uploaded r' else converted r') ∧
  (List.length (output r') ≤ List.length rows)%nat ∧
  Forall output_shape (output r').
Proof.
  intros Hload. rewrite generate_eq, Hload.
  destruct (for_each rows _ _) as [r1 res1] eqn:Hloop.
  apply for_each_output in Hloop as (_ & _ & new & Ho & Hlen & Hshape & Hd).
  unfold rows_delivered in Hd. simpl in Ho, Hd.
  assert (List.length (output r1) = (if upload then uploaded r1 else converted r1) ∧
          (List.length (output r1) ≤ List.length rows)%nat ∧
          Forall output_shape (output r1)) as Hr1.
  { rewrite Ho. split; [repeat case_match; lia|]. by split. }
  destruct res1 as [e|[]]; [by intros [= <- <-]|].
  destruct (output r1) as [|o out] eqn:Hout.
  - intros [= <- <-]. simpl. by rewrite Hout.
  - destruct (save_csv_to_sam W (o :: out) csv_out); intros [= <- <-]; simpl;
      by rewrite ?Hout.
Qed.

Lemma output_rows_match_the_counter_witness :
  let rows := [Demo.row "photo"; Demo.row "restricted"; Demo.row "malformed"] in
  let W := Demo.world rows in
  let r' := fst (generate_sam_access_files W "in.csv" "out.csv" false false false
                   (start W ∅ [])) in
  List.length (output r') = converted r' ∧
  (List.length (output r') ≤ 3)%nat ∧
  Forall output_shape (output r').
Proof.
  intros rows W r'.
  apply (output_rows_match_the_counter W "in.csv" "out.csv" false false false ∅ [] rows
           r' (snd (generate_sam_access_files W "in.csv" "out.csv" false false false
                      (start W ∅ []))));
    vm_compute; reflexivity.
Defined.

(** X12. Without [upload] the upload helper is never called: the remote
    store is after the run what it was before, whatever the rows. *)
Theorem no_upload_leaves_remote_alone (W : World) (csv_in csv_out : string)
    (watermark overwrite : bool) (r : Run W) :
  remote (fst (generate_sam_access_files W csv_in csv_out watermark false overwrite r))
    = remote r.
Proof.
  rewrite generate_eq.
  destruct (load_csv_from_sam W csv_in) as [e|rows]; [done|].
  destruct (for_each rows _ _) as [r1 res1] eqn:Hloop.
  apply for_each_output in Hloop as (_ & Hrem & _).
  specialize (Hrem eq_refl). simpl in Hrem.
  destruct res1 as [e|[]]; [done|].
  destruct (output r1) as [|o out]; [done|].
  by destruct (save_csv_to_sam W (o :: out) csv_out).
Qed.

(** X13. The output rows are handed to [save_csv_to_sam] only after the
    loop has gone through every row, and only when there is at least one:
    a finished run has saved exactly its output rows, or nothing when it
    has none, and its last two lines are the done line and the summary of
    the four counters; a run that raised has saved nothing. *)
Theorem rows_saved_only_by_a_finished_run (W : World) (csv_in csv_out : string)
    (watermark upload overwrite : bool) (fs : gmap string content) (rem : Remote W)
    (r' : Run W) res :
  generate_sam_access_files W csv_in csv_out watermark upload overwrite (start W fs rem)
    = (r', res) →
  match res with
  | inr _ =>
      saved_csv r' = match output r' with [] => None | _ :: _ => Some (output r') end ∧
      ∃ before, stdout r' =
        (before ++ [MsgDone;
                    MsgSummary (converted r') (uploaded r') (failed r') (skipped r')])%list
  | inl _ => saved_csv r' = None
  end.
Proof.
  rewrite generate_eq.
  destruct (load_csv_from_sam W csv_in) as [e|rows]; [by intros [= <- <-]|].
  destruct (for_each rows _ _) as [r1 res1] eqn:Hloop.
  apply for_each_output in Hloop as (Hsaved & _). simpl in Hsaved.
  destruct res1 as [e|[]]; [by intros [= <- <-]|].
  destruct (output r1) as [|o out] eqn:Hout.
  - intros [= <- <-]. simpl. rewrite Hout. split; [done|].
    exists (stdout r1). by rewrite <- app_assoc.
  - destruct (save_csv_to_sam W (o :: out) csv_out); intros [= <- <-]; [done|].
    simpl. rewrite Hout. split; [done|].
    exists (stdout r1). by rewrite <- app_assoc.
Qed.

Lemma rows_saved_only_by_a_finished_run_witness :
  let W := Demo.world [Demo.row "photo"; Demo.row "restricted"] in
  let r' := fst (generate_sam_access_files W "in.csv" "out.csv" false false false
                   (start W ∅ [])) in
  saved_csv r' = match output r' with [] => None | _ :: _ => Some (output r') end ∧
  ∃ before, stdout r' =
    (before ++ [MsgDone;
                MsgSummary (converted r') (uploaded r') (failed r') (skipped r')])%list.
Proof.
  intros W r'.
  apply (rows_saved_only_by_a_finished_run W "in.csv" "out.csv" false false false ∅ []
           r' (inr tt)).
  vm_compute; reflexivity.
Defined.



Section Rows.
Context (W : World) (watermark overwrite : bool).

Lemma large_or_empty (o : option string) :
  (if truthy o then default "" o else "") = default "" o.
Proof.
  destruct o as [s|]; [|done]. simpl.
  destruct (String.eqb_spec s ""); by subst.
Qed.

End Rows.

(** X15. Without upload, the output row of a converted record holds the
    local paths the generator wrote: [thumbnail] is the small file,
    [record_image] the medium file, and [large_image] the large file when
    the large size was requested and the empty string when it was not (a
    PDF); [oasid] is the stem of the file that was converted. *)
Theorem local_output_row (W : World) (watermark overwrite : bool)
    filename filepath filesizes record_type (r : Run W) fs' resp :
  SAM_ACCESS_SMALL_SIZE W ∈ filesizes →
  SAM_ACCESS_MEDIUM_SIZE W ∈ filesizes →
  _generate_jpgs W filepath 80 filesizes watermark false (files r) = (fs', inr resp) →
  resp_error resp = None →
  convert_and_emit W watermark false overwrite filename filepath filesizes record_type r
    = (add_output
         (mkOutputRecord (path_stem W filepath)
            (Some (out_file W filepath (SAM_ACCESS_SMALL_SIZE W)))
            (Some (out_file W filepath (SAM_ACCESS_MEDIUM_SIZE W)))
            record_type
            (if bool_decide (SAM_ACCESS_LARGE_SIZE W ∈ filesizes)
             then out_file W filepath (SAM_ACCESS_LARGE_SIZE W) else "")
            "web_url")
         (bump_converted
            (add_msg (MsgConverted filename)
               (set_files fs'
                  (add_call (mkCall filepath 80 filesizes watermark false) r)))),
       inr tt).
Proof.
  intros Hs Hm Hgen Hnone.
  destruct (generate_jpgs_complete W _ _ _ _ _ _ _ _ _ Hgen Hnone Hs)
    as [Hsmall _].
  destruct (generate_jpgs_complete W _ _ _ _ _ _ _ _ _ Hgen Hnone Hm)
    as [Hmedium _].
  assert (Hlarge : default "" (resp_paths resp !! SAM_ACCESS_LARGE_SIZE W)
                   = if bool_decide (SAM_ACCESS_LARGE_SIZE W ∈ filesizes)
                     then out_file W filepath (SAM_ACCESS_LARGE_SIZE W) else "").
  { case_bool_decide as Hin.
    - destruct (generate_jpgs_complete W _ _ _ _ _ _ _ _ _ Hgen Hnone Hin)
        as [-> _]. done.
    - destruct (resp_paths resp !! SAM_ACCESS_LARGE_SIZE W) as [p|] eqn:Hp; [|done].
      by destruct (generate_jpgs_keys W _ _ _ _ _ _ _ _ _ _
                     Hgen Hp) as [Hin' _]. }
  unfold convert_and_emit, print, incr_failed, incr_converted, append_output.
  unfold_monad. rewrite call_generate_jpgs_eq, Hgen. simpl.
  rewrite Hnone. simpl. rewrite Hsmall, Hmedium, large_or_empty, Hlarge. done.
Qed.

(** X16. With upload, the paths are sent in the order small, medium,
    large (the large one only when the generator wrote it under a
    non-empty path), and when the helper returns at least three URLs the
    output row takes them in that order: [thumbnail] is the first,
    [record_image] the second, [large_image] the third; the record is
    counted as converted and as uploaded. *)
Theorem uploaded_output_row (W : World) (watermark overwrite : bool)
    filename filepath filesizes record_type (r : Run W) fs' resp rem u0 u1 u2 urls :
  SAM_ACCESS_SMALL_SIZE W ∈ filesizes →
  SAM_ACCESS_MEDIUM_SIZE W ∈ filesizes →
  _generate_jpgs W filepath 80 filesizes watermark false (files r) = (fs', inr resp) →
  resp_error resp = None →
  upload_files W (remote r)
    ([out_file W filepath (SAM_ACCESS_SMALL_SIZE W);
      out_file W filepath (SAM_ACCESS_MEDIUM_SIZE W)] ++
     (if truthy (resp_paths resp !! SAM_ACCESS_LARGE_SIZE W)
      then [default "" (resp_paths resp !! SAM_ACCESS_LARGE_SIZE W)] else []))
    overwrite = (rem, inr (u0 :: u1 :: u2 :: urls)) →
  convert_and_emit W watermark true overwrite filename filepath filesizes record_type r
    = (add_output
         (mkOutputRecord (path_stem W filepath) (Some u0) (Some u1) record_type u2
            "web_url")
         (bump_uploaded
            (add_msg (MsgUploaded filename)
               (set_remote rem
                  (bump_converted
                     (add_msg (MsgConverted filename)
                        (set_files fs'
                           (add_call (mkCall filepath 80 filesizes watermark false)
                              r))))))),
       inr tt).
Proof.
  intros Hs Hm Hgen Hnone Hup.
  destruct (generate_jpgs_complete W _ _ _ _ _ _ _ _ _ Hgen Hnone Hs) as [Hsmall _].
  destruct (generate_jpgs_complete W _ _ _ _ _ _ _ _ _ Hgen Hnone Hm) as [Hmedium _].
  unfold convert_and_emit, print, incr_failed, incr_converted, append_output.
  unfold_monad. rewrite call_generate_jpgs_eq, Hgen. simpl.
  rewrite Hnone. simpl. rewrite Hsmall, Hmedium.
  match goal with
  | |- context [upload_step W filename overwrite _ _ ?l ?x] =>
      rewrite (upload_step_ok W overwrite filename _ _ l x rem u0 u1 u2 urls Hup)
  end.
  by rewrite (large_or_empty (Some u2)).
Qed.

Lemma uploaded_output_row_witness :
  let W := Demo.world [] in
  let r := start W ∅ [] in
  output (fst (convert_and_emit W false true false "a.jpg" "master/a.jpg"
                 [1920; 640; 150] "image" r))
    = [mkOutputRecord "a" (Some "https://cdn/access/small/a.jpg")
         (Some "https://cdn/access/medium/a.jpg") "image"
         "https://cdn/access/large/a.jpg" "web_url"].
Proof.
  intros W r.
  rewrite (uploaded_output_row W false false "a.jpg" "master/a.jpg" [1920; 640; 150]
             "image" r
             (fst (_generate_jpgs W "master/a.jpg" 80 [1920; 640; 150] false false ∅))
             (mkResp (<[150 := "access/small/a.jpg"]>
                        (<[640 := "access/medium/a.jpg"]>
                           (<[1920 := "access/large/a.jpg"]> ∅))) None)
             ["access/small/a.jpg"; "access/medium/a.jpg"; "access/large/a.jpg"]
             "https://cdn/access/small/a.jpg" "https://cdn/access/medium/a.jpg"
             "https://cdn/access/large/a.jpg" []).
  - reflexivity.
  - compute_done.
  - compute_done.
  - vm_compute; reflexivity.
  - reflexivity.
  - vm_compute; reflexivity.
Defined.

Lemma local_output_row_witness :
  let W := Demo.world [] in
  let r := start W ∅ [] in
  output (fst (convert_and_emit W false false false "doc.pdf" "./images/temp/doc.png"
                 [640; 150] "web_document" r))
    = [mkOutputRecord "doc" (Some "access/small/doc.jpg")
         (Some "access/medium/doc.jpg") "web_document" "" "web_url"].
Proof.
  intros W r.
  rewrite (local_output_row W false false "doc.pdf" "./images/temp/doc.png" [640; 150]
             "web_document" r
             (fst (_generate_jpgs W "./images/temp/doc.png" 80 [640; 150] false false ∅))
             (mkResp (<[150 := "access/small/doc.jpg"]>
                        (<[640 := "access/medium/doc.jpg"]> ∅)) None)).
  - vm_compute; reflexivity.
  - compute_done.
  - compute_done.
  - vm_compute; reflexivity.
  - reflexivity.
Defined.
